(** * prompt-diff: a shallow embedding of the segmenter and the differ

    The development follows [src/prompt_diff/parser.py] and
    [src/prompt_diff/differ.py].

    Modelling choices.
    - A Python [str] is a [string]; the texts considered are ASCII, so
      [str.lower], [str.strip] and the classes [\s], [\d] of [re] are
      their ASCII restrictions.
    - The patterns of [re] are values of the type [regex] below, matched
      by a backtracking matcher written in continuation-passing style
      (leftmost match, greedy and lazy repetition in the order [re]
      tries them).
    - A [dict] used as a map is a [gmap], a [set] is a [gset].
    - The float returned by [difflib.SequenceMatcher.ratio] is the
      rational [2 * matches / length]; the comparisons the program makes
      with [0.5], [0.0] and [1.0] agree with the rational ones for any
      text shorter than [2^52] characters. *)

From Stdlib Require Import Ascii QArith Lqa.
From stdpp Require Import gmap strings list fin_maps sorting.

Local Open Scope nat_scope.

(** ** Strings as Python uses them *)

Module Py.

Definition nl : ascii := "010"%char.

Definition code (c : ascii) : nat := nat_of_ascii c.

(** [str.isspace] restricted to ASCII: TAB, LF, VT, FF, CR, FS, GS, RS,
    US and SPACE. *)
Definition isspace (c : ascii) : bool :=
  let n := code c in
  ((9 <=? n) && (n <=? 13)) || ((28 <=? n) && (n <=? 32)).

Definition in_range (lo hi c : ascii) : bool :=
  (code lo <=? code c) && (code c <=? code hi).

(** [str.lower] and [str.upper] on one ASCII character. *)
Definition lower_char (c : ascii) : ascii :=
  if in_range "A" "Z" c then ascii_of_nat (code c + 32) else c.

Definition upper_char (c : ascii) : ascii :=
  if in_range "a" "z" c then ascii_of_nat (code c - 32) else c.

Fixpoint lower (s : string) : string :=
  match s with
  | EmptyString => EmptyString
  | String c s' => String (lower_char c) (lower s')
  end.

(** [s.lstrip(chars)] for a set of characters given as a predicate. *)
Fixpoint lstrip_by (p : ascii -> bool) (s : string) : string :=
  match s with
  | EmptyString => EmptyString
  | String c s' => if p c then lstrip_by p s' else s
  end.

Fixpoint rstrip_by (p : ascii -> bool) (s : string) : string :=
  match s with
  | EmptyString => EmptyString
  | String c s' =>
      match rstrip_by p s' with
      | EmptyString => if p c then EmptyString else String c EmptyString
      | r => String c r
      end
  end.

(** [s.strip()] *)
Definition strip (s : string) : string := rstrip_by isspace (lstrip_by isspace s).

(** [s.startswith(p)] *)
Definition startswith (s p : string) : bool := String.prefix p s.

(** [s.split(sep)] for a one-character separator: never an empty list. *)
Fixpoint split (sep : ascii) (s : string) : list string :=
  match s with
  | EmptyString => [EmptyString]
  | String c s' =>
      if Ascii.eqb c sep then EmptyString :: split sep s'
      else match split sep s' with
           | [] => [String c EmptyString]
           | w :: ws => String c w :: ws
           end
  end.

(** [sep.join(ls)] *)
Definition join (sep : string) (ls : list string) : string := String.concat sep ls.

(** the truth value of a [str] *)
Definition truthy (s : string) : bool :=
  match s with EmptyString => false | _ => true end.

End Py.

(** ** The fragment of [re] the program uses *)

Module Re.

Inductive regex : Type :=
| Eps                                   (* the empty pattern *)
| Lit (c : ascii)                       (* one literal character *)
| Cls (neg : bool) (rs : list (ascii * ascii))  (* [a-z_] and [^%] *)
| Dot                                   (* . : anything but a newline *)
| Cat (r1 r2 : regex)
| Alt (r1 r2 : regex)                   (* r1|r2, r1 tried first *)
| Rep (greedy : bool) (r : regex)       (* r* and r*? *)
| Grp (r : regex)                       (* the capturing group 1 *)
| Bos                                   (* ^ *)
| Eos.                                  (* $ *)

Definition opt (r : regex) : regex := Alt r Eps.          (* r? *)
Definition star (r : regex) : regex := Rep true r.        (* r* *)
Definition lazy (r : regex) : regex := Rep false r.       (* r*? *)
Definition plus (r : regex) : regex := Cat r (Rep true r). (* r+ *)

Fixpoint lits (s : string) : regex :=
  match s with
  | EmptyString => Eps
  | String c EmptyString => Lit c
  | String c s' => Cat (Lit c) (lits s')
  end.

Fixpoint cats (rs : list regex) : regex :=
  match rs with
  | [] => Eps
  | [r] => r
  | r :: rs' => Cat r (cats rs')
  end.

Fixpoint alts (rs : list regex) : regex :=
  match rs with
  | [] => Eps
  | [r] => r
  | r :: rs' => Alt r (alts rs')
  end.

(** \s and \d *)
Definition ws : regex := Cls false [("009", "013"); ("028", " ")]%char.
Definition digit : regex := Cls false [("0", "9")]%char.

Definition in_class (rs : list (ascii * ascii)) (c : ascii) : bool :=
  existsb (fun r => Py.in_range (fst r) (snd r) c) rs.

(** The result of a successful match: the offset where it ends and the
    text of group 1 when the group took part. *)
Definition outcome : Type := nat * option string.

Definition cont : Type := nat -> string -> option string -> option outcome.

(** [rmatch ic r pos s cap k]: match [r] at offset [pos], where [s] is
    the text from [pos] on, then go on with [k]; [ic] is
    [re.IGNORECASE] on ASCII text: a character matches a letter of the
    pattern when the two agree up to the case of the letters [A] to [Z].
    On other text [re] folds more (the long s matches [s], the dotted
    and dotless i match [i], the Kelvin sign matches [k]); the model does
    not cover it. *)
Fixpoint rmatch (ic : bool) (r : regex) (pos : nat) (s : string)
    (cap : option string) (k : cont) {struct r} : option outcome :=
  match r with
  | Eps => k pos s cap
  | Lit c =>
      match s with
      | String x s' =>
          if (if ic then Ascii.eqb (Py.lower_char x) (Py.lower_char c) else Ascii.eqb x c)
          then k (S pos) s' cap else None
      | EmptyString => None
      end
  | Cls neg rs =>
      match s with
      | String x s' =>
          let hit :=
            if ic then in_class rs x || in_class rs (Py.lower_char x) || in_class rs (Py.upper_char x)
            else in_class rs x in
          if xorb neg hit then k (S pos) s' cap else None
      | EmptyString => None
      end
  | Dot =>
      match s with
      | String x s' => if Ascii.eqb x Py.nl then None else k (S pos) s' cap
      | EmptyString => None
      end
  | Cat r1 r2 =>
      rmatch ic r1 pos s cap (fun pos' s' cap' => rmatch ic r2 pos' s' cap' k)
  | Alt r1 r2 =>
      match rmatch ic r1 pos s cap k with
      | Some o => Some o
      | None => rmatch ic r2 pos s cap k
      end
  | Rep greedy r1 =>
      (fix loop (n : nat) (pos : nat) (s : string) (cap : option string) {struct n} :=
         match n with
         | 0 => k pos s cap
         | S n' =>
             let more (_ : unit) :=
               rmatch ic r1 pos s cap
                 (fun pos' s' cap' =>
                    if String.length s' <? String.length s then loop n' pos' s' cap' else None) in
             if greedy then
               match more () with Some o => Some o | None => k pos s cap end
             else
               match k pos s cap with Some o => Some o | None => more () end
         end) (String.length s) pos s cap
  | Grp r1 =>
      rmatch ic r1 pos s cap
        (fun pos' s' _ => k pos' s' (Some (String.substring 0 (pos' - pos) s)))
  | Bos => if pos =? 0 then k pos s cap else None
  | Eos =>
      match s with
      | EmptyString => k pos s cap
      | String x EmptyString => if Ascii.eqb x Py.nl then k pos s cap else None
      | _ => None
      end
  end.

(** [re.match(r, s)]: a match that starts at offset 0. *)
Definition match_ (ic : bool) (r : regex) (s : string) : option outcome :=
  rmatch ic r 0 s None (fun pos _ cap => Some (pos, cap)).

(** A match found by [re.finditer]: group 1, start and end. *)
Record found : Type := { group1 : string; start_ : nat; end_ : nat }.

(** [re.finditer(r, s)], scanning from offset [pos] where [s] is the text
    left: the leftmost match, then the scan resumes where it ended (one
    character further after an empty match). *)
Fixpoint finditer_from (fuel : nat) (r : regex) (pos : nat) (s : string) : list found :=
  match fuel with
  | 0 => []
  | S fuel' =>
      match rmatch false r pos s None (fun pos' _ cap => Some (pos', cap)) with
      | Some (e, cap) =>
          let m := {| group1 := default EmptyString cap; start_ := pos; end_ := e |} in
          let step := Nat.max 1 (e - pos) in
          if String.length s <? step then [m]
          else m :: finditer_from fuel' r (pos + step)
                      (String.substring step (String.length s - step) s)
      | None =>
          match s with
          | EmptyString => []
          | String _ s' => finditer_from fuel' r (S pos) s'
          end
      end
  end.

Definition finditer (r : regex) (s : string) : list found :=
  finditer_from (S (String.length s)) r 0 s.

(** [len(re.findall(r, s))] *)
Definition count (r : regex) (s : string) : nat := length (finditer r s).

End Re.

(** ** parser.py *)

Module Parser.
Import Re.

Inductive PromptType : Type :=
| TEXT | VARIABLE | INSTRUCTION | EXAMPLE | ROLE | COMMENT | WHITESPACE.

#[global] Instance PromptType_eq_dec : EqDecision PromptType.
Proof. solve_decision. Defined.

(** The values a [metadata] dict holds: a [str] under ['syntax'] and
    ['role'], a list of names under ['variables']. *)
Inductive meta : Type :=
| MStr (s : string)
| MList (l : list string).

Record PromptElement : Type := mkElement {
  type : PromptType;
  content : string;
  line_start : nat;
  line_end : nat;
  raw : string;
  metadata : gmap string meta;
}.

#[global] Instance meta_eq_dec : EqDecision meta.
Proof. solve_decision. Defined.

#[global] Instance PromptElement_eq_dec : EqDecision PromptElement.
Proof. solve_decision. Defined.

Definition set_metadata (e : PromptElement) (m : gmap string meta) : PromptElement :=
  mkElement (type e) (content e) (line_start e) (line_end e) (raw e) m.

(** *** The pattern tables *)

Definition word_start : regex := Cls false [("a", "z"); ("A", "Z"); ("_", "_")]%char.
Definition word_char : regex :=
  Cls false [("a", "z"); ("A", "Z"); ("0", "9"); ("_", "_")]%char.
Definition ident : regex := Cat word_start (star word_char).
Definition upper_start : regex := Cls false [("A", "Z"); ("_", "_")]%char.
Definition upper_char : regex := Cls false [("A", "Z"); ("0", "9"); ("_", "_")]%char.

(** [pat src r]: the pattern whose text in the source is [src], as the
    [regex] [r]. *)
Definition pat (src : string) (r : regex) : regex := r.

Definition VARIABLE_PATTERNS : list (regex * string) :=
  [ (pat "\{\{\s*([a-zA-Z_][a-zA-Z0-9_]*(?:\s*\|\s*[a-zA-Z_][a-zA-Z0-9_]*)*)\s*\}\}"
       (cats [lits "{{"; star ws;
              Grp (Cat ident (star (cats [star ws; Lit "|"; star ws; ident])));
              star ws; lits "}}"]), "jinja2");
    (pat "\{%\s*([a-zA-Z_]+(?:\s+[^%]+)?)\s*%\}"
       (cats [lits "{%"; star ws;
              Grp (Cat (plus word_start)
                       (opt (Cat (plus ws) (plus (Cls true [("%", "%")]%char)))));
              star ws; lits "%}"]), "jinja2_block");
    (pat "\{\{\{?\s*([a-zA-Z_][a-zA-Z0-9_.]*)\s*\}\}\}?"
       (cats [lits "{{"; opt (Lit "{"); star ws;
              Grp (Cat word_start
                       (star (Cls false [("a", "z"); ("A", "Z"); ("0", "9");
                                         ("_", "_"); (".", ".")]%char)));
              star ws; lits "}}"; opt (Lit "}")]), "mustache");
    (pat "\{([a-zA-Z_][a-zA-Z0-9_]*)(?::[^}]*)?\}"
       (cats [Lit "{"; Grp ident;
              opt (Cat (Lit ":") (star (Cls true [("}", "}")]%char)));
              Lit "}"]), "fstring");
    (pat "\$\{([a-zA-Z_][a-zA-Z0-9_]*)\}"
       (cats [lits "${"; Grp ident; Lit "}"]), "shell_brace");
    (pat "\$([a-zA-Z_][a-zA-Z0-9_]*)"
       (cats [Lit "$"; Grp ident]), "shell");
    (pat "<([A-Z_][A-Z0-9_]*)(?:\s*/>|>)"
       (cats [Lit "<"; Grp (Cat upper_start (star upper_char));
              Alt (Cat (star ws) (lits "/>")) (Lit ">")]), "xml");
    (pat "\[\[?([A-Z_][A-Z0-9_]*)\]?\]"
       (cats [Lit "["; opt (Lit "["); Grp (Cat upper_start (star upper_char));
              opt (Lit "]"); Lit "]"]), "placeholder") ].

Definition INSTRUCTION_KEYWORDS : list string :=
  [ "you are"; "you must"; "you should"; "you will"; "you can";
    "do not"; "don't"; "never"; "always"; "ensure"; "make sure";
    "remember"; "note:"; "important:"; "warning:"; "caution:";
    "rule:"; "constraint:"; "requirement:"; "instruction:";
    "task:"; "goal:"; "objective:"; "purpose:";
    "format:"; "output:"; "respond"; "reply"; "answer";
    "think"; "analyze"; "consider"; "evaluate";
    "step 1"; "step 2"; "first,"; "then,"; "finally,"; "next,";
    "1."; "2."; "3."; "4."; "5.";
    "-"; "*"; "â€¢" ].

Definition role_names : regex :=
  alts [lits "system"; lits "user"; lits "assistant"; lits "human"; lits "ai"].

Definition ROLE_PATTERNS : list regex :=
  [ pat "^(system|user|assistant|human|ai|bot):\s*"
      (cats [Bos; Grp (Alt role_names (lits "bot")); Lit ":"; star ws]);
    pat "^<(system|user|assistant|human|ai)>"
      (cats [Bos; Lit "<"; Grp role_names; Lit ">"]);
    pat "^\[(system|user|assistant|human|ai)\]"
      (cats [Bos; Lit "["; Grp role_names; Lit "]"]) ].

Definition EXAMPLE_PATTERNS : list regex :=
  [ pat "^example\s*\d*:?\s*$"
      (cats [Bos; lits "example"; star ws; star digit; opt (Lit ":"); star ws; Eos]);
    pat "^input:\s*$" (cats [Bos; lits "input:"; star ws; Eos]);
    pat "^output:\s*$" (cats [Bos; lits "output:"; star ws; Eos]);
    pat "^expected:\s*$" (cats [Bos; lits "expected:"; star ws; Eos]);
    pat "^sample:\s*$" (cats [Bos; lits "sample:"; star ws; Eos]);
    pat "^```" (cats [Bos; lits "```"]) ].

(** The signature pattern of each dialect, in the order the dict of
    [detect_template_syntax] declares them. *)
Definition SYNTAX_PATTERNS : list (string * regex) :=
  [ ("jinja2", pat "\{\{.*?\}\}|\{%.*?%\}"
                 (Alt (cats [lits "{{"; lazy Dot; lits "}}"])
                      (cats [lits "{%"; lazy Dot; lits "%}"])));
    ("mustache", pat "\{\{\{?[^{].*?\}\}\}?"
                   (cats [lits "{{"; opt (Lit "{"); Cls true [("{", "{")]%char;
                          lazy Dot; lits "}}"; opt (Lit "}")]));
    ("fstring", pat "\{[a-zA-Z_][a-zA-Z0-9_]*\}" (cats [Lit "{"; ident; Lit "}"]));
    ("shell", pat "\$[{a-zA-Z_]"
                (Cat (Lit "$")
                     (Cls false [("{", "{"); ("a", "z"); ("A", "Z"); ("_", "_")]%char)));
    ("xml", pat "<[A-Z_]+(?:\s*/>|>)"
              (cats [Lit "<"; plus upper_start;
                     Alt (Cat (star ws) (lits "/>")) (Lit ">")]));
    ("placeholder", pat "\[\[?[A-Z_]+\]?\]"
                      (cats [Lit "["; opt (Lit "["); plus upper_start;
                             opt (Lit "]"); Lit "]"])) ].

(** *** The functions *)

Definition syntax_counts (text : string) : list (string * nat) :=
  map (fun p => (fst p, Re.count (snd p) text)) SYNTAX_PATTERNS.

(** [max(d, key=d.get)]: the first key, in insertion order, whose count
    is the largest. *)
Fixpoint max_key (best : string * nat) (l : list (string * nat)) : string :=
  match l with
  | [] => fst best
  | p :: l' => if snd best <? snd p then max_key p l' else max_key best l'
  end.

Definition detect_template_syntax (text : string) : string :=
  let counts := syntax_counts text in
  if foldr Nat.max 0 (map snd counts) =? 0 then "plain"
  else match counts with
       | [] => "plain"
       | p :: l => max_key p l
       end.

(** [(name, syntax, start, end)] *)
Definition variable : Type := string * string * nat * nat.

Definition var_name (v : variable) : string := fst (fst (fst v)).
Definition var_start (v : variable) : nat := snd (fst v).

(** [list.sort(key=...)] is stable: inserting from the right end, an
    element goes before the ones that do not start earlier. *)
Fixpoint insert_by_start (v : variable) (l : list variable) : list variable :=
  match l with
  | [] => [v]
  | w :: l' => if var_start v <=? var_start w then v :: l else w :: insert_by_start v l'
  end.

Definition sort_by_start (l : list variable) : list variable :=
  foldr insert_by_start [] l.

Definition extract_variables (text : string) : list variable :=
  let variables :=
    flat_map (fun p =>
                map (fun m => (Re.group1 m, snd p, Re.start_ m, Re.end_ m))
                    (Re.finditer (fst p) text))
             VARIABLE_PATTERNS in
  sort_by_start variables.

Definition is_instruction_line (line : string) : bool :=
  let line_lower := Py.strip (Py.lower line) in
  existsb (fun kw => Py.startswith line_lower kw) INSTRUCTION_KEYWORDS.

Fixpoint first_role (ps : list regex) (line : string) : option string :=
  match ps with
  | [] => None
  | p :: ps' =>
      match Re.match_ true p line with
      | Some (_, cap) => Some (Py.lower (default EmptyString cap))
      | None => first_role ps' line
      end
  end.

(** [is_role_marker] returns [(True, name)] or [(False, None)]: here
    [Some name] or [None]. *)
Definition is_role_marker (line : string) : option string :=
  first_role ROLE_PATTERNS line.

Definition is_example_marker (line : string) : bool :=
  let line_lower := Py.strip (Py.lower line) in
  existsb (fun p => bool_decide (is_Some (Re.match_ true p line_lower))) EXAMPLE_PATTERNS.

(** *** [parse_prompt]

    The local variables of [parse_prompt], which the closure
    [flush_element] and the loop body update. *)
Record pstate : Type := mkState {
  elements : list PromptElement;
  in_example : bool;
  in_code_block : bool;
  current_element_lines : list string;
  current_element_type : option PromptType;
  element_start_line : nat;
}.

Definition initial : pstate := mkState [] false false [] None 0.

Definition nl_str : string := String Py.nl EmptyString.

Definition flush_element (syntax : string) (st : pstate) : pstate :=
  match current_element_lines st with
  | [] => st
  | _ :: _ =>
      let content := Py.join nl_str (current_element_lines st) in
      let e :=
        mkElement (default TEXT (current_element_type st)) content
          (element_start_line st)
          (element_start_line st + length (current_element_lines st) - 1)
          content {[ "syntax" := MStr syntax ]} in
      mkState (elements st ++ [e]) (in_example st) (in_code_block st)
        [] None (element_start_line st)
  end.

(** [elements.append(e)] *)
Definition emit (e : PromptElement) (st : pstate) : pstate :=
  mkState (elements st ++ [e]) (in_example st) (in_code_block st)
    (current_element_lines st) (current_element_type st) (element_start_line st).

(** [current_element_lines.append(line)] *)
Definition push_line (line : string) (st : pstate) : pstate :=
  mkState (elements st) (in_example st) (in_code_block st)
    (current_element_lines st ++ [line]) (current_element_type st)
    (element_start_line st).

(** [element_start_line = i; current_element_type = t] *)
Definition open_run (i : nat) (t : PromptType) (st : pstate) : pstate :=
  mkState (elements st) (in_example st) (in_code_block st)
    (current_element_lines st) (Some t) i.

Definition set_in_example (b : bool) (st : pstate) : pstate :=
  mkState (elements st) b (in_code_block st)
    (current_element_lines st) (current_element_type st) (element_start_line st).

Definition set_in_code_block (b : bool) (st : pstate) : pstate :=
  mkState (elements st) (in_example st) b
    (current_element_lines st) (current_element_type st) (element_start_line st).

Definition is_fence (stripped : string) : bool := Py.startswith stripped "```".

Definition is_comment (stripped : string) : bool :=
  Py.startswith stripped "#" || Py.startswith stripped "//".

Definition comment_chars (c : ascii) : bool :=
  Ascii.eqb c "#" || Ascii.eqb c "/" || Ascii.eqb c " ".

(** One iteration of [for i, line in enumerate(lines)]. *)
Definition step (syntax : string) (i : nat) (line : string) (st : pstate) : pstate :=
  let stripped := Py.strip line in
  if is_fence stripped then
    let st := set_in_code_block (negb (in_code_block st)) st in
    let st := if in_code_block st then open_run i EXAMPLE (flush_element syntax st) else st in
    let st := push_line line st in
    if negb (in_code_block st) then flush_element syntax st else st
  else if in_code_block st then push_line line st
  else match is_role_marker stripped with
  | Some role_name =>
      emit (mkElement ROLE role_name i i line {[ "role" := MStr role_name ]})
           (flush_element syntax st)
  | None =>
  if is_comment stripped then
    emit (mkElement COMMENT (Py.lstrip_by comment_chars stripped) i i line ∅)
         (flush_element syntax st)
  else if is_example_marker stripped then
    push_line line (open_run i EXAMPLE (set_in_example true (flush_element syntax st)))
  else if is_instruction_line stripped && negb (in_example st) then
    let st :=
      if bool_decide (current_element_type st ≠ Some INSTRUCTION)
      then open_run i INSTRUCTION (flush_element syntax st) else st in
    push_line line st
  else if negb (Py.truthy stripped) then
    let st :=
      match current_element_lines st with
      | _ :: _ => push_line line st
      | [] =>
          match elements st with
          | _ :: _ => emit (mkElement WHITESPACE EmptyString i i line ∅) st
          | [] => st
          end
      end in
    set_in_example false st
  else
    let st :=
      match current_element_type st with
      | None => open_run i TEXT st
      | Some _ => st
      end in
    push_line line st
  end.

(** The loop over [enumerate(lines)], from index [i] on. *)
Fixpoint run (syntax : string) (i : nat) (lines : list string) (st : pstate) : pstate :=
  match lines with
  | [] => st
  | line :: lines' => run syntax (S i) lines' (step syntax i line st)
  end.

Definition has_variables (t : PromptType) : bool :=
  match t with
  | TEXT | INSTRUCTION | EXAMPLE => true
  | _ => false
  end.

(** The body of the last loop of [parse_prompt]. *)
Definition annotate (element : PromptElement) : PromptElement :=
  if has_variables (type element) then
    match extract_variables (content element) with
    | [] => element
    | vars => set_metadata element (<[ "variables" := MList (map var_name vars) ]> (metadata element))
    end
  else element.

Definition parse_prompt (text : string) : list PromptElement :=
  let lines := Py.split Py.nl text in
  let syntax := detect_template_syntax text in
  let st := flush_element syntax (run syntax 0 lines initial) in
  map annotate (elements st).

(** [set.update(x)] for the value stored under ['variables']. *)
Definition update_with (s : gset string) (v : meta) : gset string :=
  match v with
  | MList l => s ∪ list_to_set l
  | MStr x => s ∪ list_to_set (map (fun c => String c EmptyString) (String.list_ascii_of_string x))
  end.

Definition get_all_variables (elements : list PromptElement) : gset string :=
  foldl (fun variables element =>
           match metadata element !! "variables" with
           | Some v => update_with variables v
           | None => variables
           end) ∅ elements.

End Parser.

(** ** [difflib.SequenceMatcher(None, a, b).ratio()]

    The matcher of the Python library as [compute_similarity] calls it:
    no junk predicate, [autojunk] left at its default. Offsets are
    naturals; [i - k + 1] is written [i + 1 - k], the same number since a
    match that ends at [i] is never longer than [i + 1]. *)

Module Difflib.

(** A [Match(a, b, size)] and a region [(alo, ahi, blo, bhi)]. *)
Definition Match : Type := nat * nat * nat.
Definition region : Type := nat * nat * nat * nat.

Definition size (m : Match) : nat := snd m.

Definition total (l : list Match) : nat := foldr (fun m n => size m + n) 0 l.

(** The offsets of [c] in [l], counted from [j], in increasing order. *)
Fixpoint indices_from (c : ascii) (j : nat) (l : list ascii) : list nat :=
  match l with
  | [] => []
  | x :: l' =>
      if Ascii.eqb x c then j :: indices_from c (S j) l' else indices_from c (S j) l'
  end.

Definition same (x y : option ascii) : bool :=
  match x, y with
  | Some c, Some d => Ascii.eqb c d
  | _, _ => false
  end.

Section matcher.
Variables a b : list ascii.

(** [__chain_b]: with [autojunk] and at least 200 elements, an element
    found more than [n // 100 + 1] times is popular and leaves [b2j]. *)
Definition popular (c : ascii) : bool :=
  let n := length b in
  (200 <=? n) && (n / 100 + 1 <? length (indices_from c 0 b)).

(** [b2j.get(c, [])] *)
Definition b2j (c : ascii) : list nat :=
  if popular c then [] else indices_from c 0 b.

(** [isjunk] is [None]: the set [bjunk] stays empty. *)
Definition isbjunk (c : option ascii) : bool := false.

(** [j2len.get(j - 1, 0)] *)
Definition j2lenget (j2len : gmap nat nat) (j : nat) : nat :=
  match j with
  | 0 => 0
  | S j' => default 0 (j2len !! j')
  end.

Section find_longest_match.
Variables alo ahi blo bhi : nat.

(** [for j in b2j.get(a[i], nothing)] *)
Fixpoint scan_row (i : nat) (js : list nat) (j2len newj2len : gmap nat nat)
    (best : Match) : gmap nat nat * Match :=
  match js with
  | [] => (newj2len, best)
  | j :: js' =>
      if j <? blo then scan_row i js' j2len newj2len best
      else if bhi <=? j then (newj2len, best)
      else
        let k := j2lenget j2len j + 1 in
        let best := if size best <? k then (i + 1 - k, j + 1 - k, k) else best in
        scan_row i js' j2len (<[ j := k ]> newj2len) best
  end.

(** The body of [for i in range(alo, ahi)]. *)
Definition row (st : gmap nat nat * Match) (i : nat) : gmap nat nat * Match :=
  match a !! i with
  | Some c => scan_row i (b2j c) (fst st) ∅ (snd st)
  | None => (∅, snd st)
  end.

Definition rows : gmap nat nat * Match :=
  foldl row (∅, (alo, blo, 0)) (seq alo (ahi - alo)).

(** The loops that grow [best] to the left and to the right over
    elements that are junk ([junk = true]) or are not. *)
Fixpoint extend_left (junk : bool) (fuel : nat) (best : Match) : Match :=
  let '(besti, bestj, bestsize) := best in
  match fuel with
  | 0 => best
  | S fuel' =>
      if (alo <? besti) && (blo <? bestj)
         && Bool.eqb (isbjunk (b !! (bestj - 1))) junk
         && same (a !! (besti - 1)) (b !! (bestj - 1))
      then extend_left junk fuel' (besti - 1, bestj - 1, bestsize + 1)
      else best
  end.

Fixpoint extend_right (junk : bool) (fuel : nat) (best : Match) : Match :=
  let '(besti, bestj, bestsize) := best in
  match fuel with
  | 0 => best
  | S fuel' =>
      if (besti + bestsize <? ahi) && (bestj + bestsize <? bhi)
         && Bool.eqb (isbjunk (b !! (bestj + bestsize))) junk
         && same (a !! (besti + bestsize)) (b !! (bestj + bestsize))
      then extend_right junk fuel' (besti, bestj, bestsize + 1)
      else best
  end.

(** Each loop runs at most [ahi] times: the first and third lower
    [besti], the others raise [besti + bestsize] up to [ahi]. *)
Definition find_longest_match : Match :=
  let best := snd rows in
  let best := extend_left false ahi best in
  let best := extend_right false ahi best in
  let best := extend_left true ahi best in
  extend_right true ahi best.

End find_longest_match.

(** The loop [while queue] of [get_matching_blocks]. [queue] is kept
    with its last element first: [queue.pop()] takes the head and
    [queue.append] conses. The result is the list of blocks and what
    is left of the queue when the fuel is spent. *)
Fixpoint blocks_loop (fuel : nat) (queue : list region) (matching_blocks : list Match)
    : list Match * list region :=
  match fuel, queue with
  | 0, _ => (matching_blocks, queue)
  | _, [] => (matching_blocks, [])
  | S fuel', (alo, ahi, blo, bhi) :: queue =>
      let x := find_longest_match alo ahi blo bhi in
      let '(i, j, k) := x in
      if k =? 0 then blocks_loop fuel' queue matching_blocks
      else
        let queue := if (alo <? i) && (blo <? j) then (alo, i, blo, j) :: queue else queue in
        let queue :=
          if (i + k <? ahi) && (j + k <? bhi) then (i + k, ahi, j + k, bhi) :: queue
          else queue in
        blocks_loop fuel' queue (matching_blocks ++ [x])
  end.

(** A region of width [n] in [a] costs at most [2 * n + 1] turns of the
    loop. *)
Definition enough : nat := 2 * length a + 1.

Definition found_blocks : list Match :=
  fst (blocks_loop enough [(0, length a, 0, length b)] []).

(** The order of tuples. *)
Definition block_le (x y : Match) : Prop :=
  let '(i1, j1, k1) := x in
  let '(i2, j2, k2) := y in
  i1 < i2 ∨ (i1 = i2 ∧ (j1 < j2 ∨ (j1 = j2 ∧ k1 ≤ k2))).

#[global] Instance block_le_dec x y : Decision (block_le x y).
Proof. destruct x as [[i1 j1] k1], y as [[i2 j2] k2]; simpl; apply _. Defined.

(** The pass that merges adjacent blocks; [cur] is [(i1, j1, k1)]. *)
Fixpoint collapse (cur : Match) (l : list Match) (non_adjacent : list Match)
    : list Match :=
  let '(i1, j1, k1) := cur in
  match l with
  | [] => if k1 =? 0 then non_adjacent else non_adjacent ++ [cur]
  | (i2, j2, k2) :: l' =>
      if (i1 + k1 =? i2) && (j1 + k1 =? j2) then collapse (i1, j1, k1 + k2) l' non_adjacent
      else collapse (i2, j2, k2) l'
             (if k1 =? 0 then non_adjacent else non_adjacent ++ [cur])
  end.

Definition get_matching_blocks : list Match :=
  collapse (0, 0, 0) (merge_sort block_le found_blocks) []
    ++ [(length a, length b, 0)].

(** [_calculate_ratio(matches, length)] *)
Definition calculate_ratio (matches length : nat) : Q :=
  if length =? 0 then 1%Q
  else (2 * inject_Z (Z.of_nat matches) / inject_Z (Z.of_nat length))%Q.

Definition ratio : Q :=
  calculate_ratio (total get_matching_blocks) (length a + length b).

End matcher.

End Difflib.

(** ** differ.py *)

Module Differ.
Import Parser.

Inductive ChangeType : Type := ADDED | REMOVED | MODIFIED | UNCHANGED.

#[global] Instance ChangeType_eq_dec : EqDecision ChangeType.
Proof. solve_decision. Defined.

Record ElementDiff : Type := mkDiff {
  change_type : ChangeType;
  element_type : PromptType;
  old_content : option string;
  new_content : option string;
  old_line : option nat;
  new_line : option nat;
  details : gmap string Q;
}.

Record DiffResult : Type := mkResult {
  old_path : string;
  new_path : string;
  element_diffs : list ElementDiff;
  old_variables : gset string;
  new_variables : gset string;
  added_variables : gset string;
  removed_variables : gset string;
  similarity : Q;
}.

Definition has_changes (r : DiffResult) : bool :=
  existsb (fun d => bool_decide (change_type d ≠ UNCHANGED)) (element_diffs r).

(** The counts of [DiffResult.summary]. *)
Definition count_kind (k : ChangeType) (ds : list ElementDiff) : nat :=
  length (filter (fun d => change_type d = k) ds).

Definition compute_similarity (old_text new_text : string) : Q :=
  if negb (Py.truthy old_text) && negb (Py.truthy new_text) then 1%Q
  else if negb (Py.truthy old_text) || negb (Py.truthy new_text) then 0%Q
  else Difflib.ratio (String.list_ascii_of_string old_text)
                     (String.list_ascii_of_string new_text).

(** *** [align_elements]

    An element is an object: two equal elements of one list are still
    two elements. The model keeps each element with its index in the
    list it comes from, which is its identity; [align_elements] forgets
    the indices. *)
Definition item : Type := nat * PromptElement.
Definition pairing : Type := option item * option item.

(** [[(i, e) for i, e in enumerate(elements) if e.type != WHITESPACE]] *)
Definition filtered (elements : list PromptElement) : list item :=
  filter (fun p : item => type (snd p) ≠ WHITESPACE) (imap pair elements).

(** [aligned], [old_used] and [new_used] *)
Record astate : Type := mkAlign {
  aligned : list pairing;
  old_used : gset nat;
  new_used : gset nat;
}.

Definition matched (old new : item) (st : astate) : astate :=
  mkAlign (aligned st ++ [(Some old, Some new)])
    (old_used st ∪ {[ fst old ]}) (new_used st ∪ {[ fst new ]}).

(** The inner loop of the first pass: the first unused old element of
    the same type and content. *)
Fixpoint find_exact (new_elem : PromptElement) (old_filtered : list item)
    (used : gset nat) : option item :=
  match old_filtered with
  | [] => None
  | (old_idx, old_elem) :: rest =>
      if decide (old_idx ∈ used) then find_exact new_elem rest used
      else if bool_decide (type old_elem = type new_elem)
              && bool_decide (content old_elem = content new_elem)
      then Some (old_idx, old_elem)
      else find_exact new_elem rest used
  end.

Definition exact_step (old_filtered : list item) (st : astate) (new : item) : astate :=
  match find_exact (snd new) old_filtered (old_used st) with
  | Some old => matched old new st
  | None => st
  end.

(** The inner loop of the second pass, from the current [best_match] and
    [best_score]. *)
Fixpoint scan_similar (new_elem : PromptElement) (old_filtered : list item)
    (used : gset nat) (best_match : option item) (best_score : Q)
    : option item * Q :=
  match old_filtered with
  | [] => (best_match, best_score)
  | (old_idx, old_elem) :: rest =>
      if decide (old_idx ∈ used) then
        scan_similar new_elem rest used best_match best_score
      else if bool_decide (type old_elem = type new_elem) then
        let score := compute_similarity (content old_elem) (content new_elem) in
        if Qlt_le_dec best_score score
        then scan_similar new_elem rest used (Some (old_idx, old_elem)) score
        else scan_similar new_elem rest used best_match best_score
      else scan_similar new_elem rest used best_match best_score
  end.

(** The minimum similarity threshold. *)
Definition threshold : Q := 0.5%Q.

Definition similar_step (old_filtered : list item) (st : astate) (new : item) : astate :=
  if decide (fst new ∈ new_used st) then st
  else
    match fst (scan_similar (snd new) old_filtered (old_used st) None threshold) with
    | Some old => matched old new st
    | None => st
    end.

Definition remaining (l : list item) (used : gset nat) : list item :=
  filter (fun p : item => fst p ∉ used) l.

Definition align_indexed (old_elements new_elements : list PromptElement) : list pairing :=
  let old_filtered := filtered old_elements in
  let new_filtered := filtered new_elements in
  let st := mkAlign [] ∅ ∅ in
  let st := foldl (exact_step old_filtered) st new_filtered in
  let st := foldl (similar_step old_filtered) st new_filtered in
  aligned st
    ++ map (fun old => (Some old, None)) (remaining old_filtered (old_used st))
    ++ map (fun new => (None, Some new)) (remaining new_filtered (new_used st)).

Definition forget (p : pairing) : option PromptElement * option PromptElement :=
  (snd <$> fst p, snd <$> snd p).

Definition align_elements (old_elements new_elements : list PromptElement)
    : list (option PromptElement * option PromptElement) :=
  map forget (align_indexed old_elements new_elements).

(** *** [diff_prompts]

    The body of the loop over the aligned pairs. With both sides [None]
    the first branch reads [new_elem.type] and raises: [None] here. *)
Definition element_diff (p : option PromptElement * option PromptElement)
    : option ElementDiff :=
  match p with
  | (None, None) => None
  | (None, Some new_elem) =>
      Some (mkDiff ADDED (type new_elem) None (Some (content new_elem))
              None (Some (line_start new_elem)) ∅)
  | (Some old_elem, None) =>
      Some (mkDiff REMOVED (type old_elem) (Some (content old_elem)) None
              (Some (line_start old_elem)) None ∅)
  | (Some old_elem, Some new_elem) =>
      if bool_decide (content old_elem = content new_elem) then
        Some (mkDiff UNCHANGED (type old_elem)
                (Some (content old_elem)) (Some (content new_elem))
                (Some (line_start old_elem)) (Some (line_start new_elem)) ∅)
      else
        Some (mkDiff MODIFIED (type old_elem)
                (Some (content old_elem)) (Some (content new_elem))
                (Some (line_start old_elem)) (Some (line_start new_elem))
                {[ "similarity" := compute_similarity (content old_elem) (content new_elem) ]})
  end.

Definition diff_prompts (old_text new_text old_path new_path : string)
    : option DiffResult :=
  let old_elements := parse_prompt old_text in
  let new_elements := parse_prompt new_text in
  let old_variables := get_all_variables old_elements in
  let new_variables := get_all_variables new_elements in
  let aligned := align_elements old_elements new_elements in
  element_diffs ← mapM element_diff aligned;
  Some (mkResult old_path new_path element_diffs old_variables new_variables
          (new_variables ∖ old_variables) (old_variables ∖ new_variables)
          (compute_similarity old_text new_text)).

End Differ.

(** * Properties *)

Import Parser Differ.

(** ** Segmentation of concrete texts *)

(** The scenario text: an instruction line, a blank line, a line with a
    placeholder. *)
Definition scenario : string :=
  "You are a helpful bot." +:+ nl_str +:+ nl_str +:+ "{{name}}, please summarize.".

(** ** The dialect in the metadata *)

(** What the metadata of an element says about the dialect [syntax]. *)
Definition syntax_recorded (syntax : string) (e : PromptElement) : Prop :=
  match type e with
  | TEXT | INSTRUCTION | EXAMPLE => metadata e !! "syntax" = Some (MStr syntax)
  | ROLE | COMMENT | WHITESPACE => metadata e !! "syntax" = None
  | VARIABLE => False
  end.

(** The kinds a run can have. *)
Definition run_kind (t : option PromptType) : Prop :=
  match t with
  | None | Some TEXT | Some INSTRUCTION | Some EXAMPLE => True
  | Some _ => False
  end.

Definition state_recorded (syntax : string) (st : pstate) : Prop :=
  Forall (syntax_recorded syntax) (elements st) ∧ run_kind (current_element_type st).

Section recorded.
Variable syntax : string.

Lemma flush_recorded st :
  state_recorded syntax st → state_recorded syntax (flush_element syntax st).
Proof.
  intros [Hel Hk]. unfold flush_element.
  destruct (current_element_lines st) as [|l ls]; [by split|].
  split; simpl; [|done].
  apply Forall_app; split; [done|].
  apply Forall_singleton. unfold syntax_recorded; simpl.
  destruct (current_element_type st) as [[]|]; simpl in *; try done.
Qed.

Lemma emit_recorded e st :
  syntax_recorded syntax e →
  state_recorded syntax st → state_recorded syntax (emit e st).
Proof.
  intros He [Hel Hk]. split; simpl; [|done].
  apply Forall_app; split; [done|]. by apply Forall_singleton.
Qed.

Lemma push_recorded line st :
  state_recorded syntax st → state_recorded syntax (push_line line st).
Proof. by intros [Hel Hk]. Qed.

Lemma open_recorded i t st :
  run_kind (Some t) →
  state_recorded syntax st → state_recorded syntax (open_run i t st).
Proof. by intros Ht [Hel Hk]. Qed.

Lemma example_flag_recorded b st :
  state_recorded syntax st → state_recorded syntax (set_in_example b st).
Proof. by intros [Hel Hk]. Qed.

Lemma code_flag_recorded b st :
  state_recorded syntax st → state_recorded syntax (set_in_code_block b st).
Proof. by intros [Hel Hk]. Qed.

Ltac recorded :=
  repeat first
    [ assumption
    | apply flush_recorded
    | apply push_recorded
    | apply example_flag_recorded
    | apply code_flag_recorded
    | apply open_recorded; [exact I|]
    | apply emit_recorded; [reflexivity|] ].

Lemma step_recorded i line st :
  state_recorded syntax st → state_recorded syntax (step syntax i line st).
Proof. intros H. unfold step. repeat case_match; recorded. Qed.

Lemma run_recorded lines : ∀ i st,
  state_recorded syntax st → state_recorded syntax (run syntax i lines st).
Proof.
  induction lines as [|line lines IH]; intros i st H; simpl; [done|].
  by apply IH, step_recorded.
Qed.

Lemma annotate_recorded e :
  syntax_recorded syntax e → syntax_recorded syntax (annotate e).
Proof.
  unfold annotate, syntax_recorded.
  destruct (type e) eqn:Ht; simpl; try done;
    destruct (extract_variables (content e)); simpl; rewrite ?Ht; try done;
    by rewrite lookup_insert_ne.
Qed.

End recorded.

(** A role line, a comment line and a blank line. *)
Definition unflushed_kinds : string :=
  "system: hi" +:+ nl_str +:+ "# note" +:+ nl_str.

(** C4, counterexample. The text [unflushed_kinds] segments into a Role, a
    Comment and a Whitespace element, and the metadata of none of them
    has the key ['syntax']: the dialect is not attached to every element. *)
Lemma syntax_not_on_every_element :
  map type (parse_prompt unflushed_kinds) = [ROLE; COMMENT; WHITESPACE]
  ∧ Forall (fun e => metadata e !! "syntax" = None) (parse_prompt unflushed_kinds).
Proof. split; [vm_compute; reflexivity|]. vm_compute. repeat constructor. Qed.

(** C4, as amended. The dialect detected for the whole text is computed
    once and is the value under ['syntax'] in the metadata of every Text,
    Instruction and Example element of the segmentation (the elements
    [flush_element] builds); the metadata of a Role, Comment or Whitespace
    element has no ['syntax'] key, and no Variable element is produced. *)
Theorem syntax_on_flushed_elements (text : string) :
  Forall (fun e =>
            match type e with
            | TEXT | INSTRUCTION | EXAMPLE =>
                metadata e !! "syntax" = Some (MStr (detect_template_syntax text))
            | ROLE | COMMENT | WHITESPACE => metadata e !! "syntax" = None
            | VARIABLE => False
            end)
         (parse_prompt text).
Proof.
  unfold parse_prompt. apply Forall_fmap.
  set (syntax := detect_template_syntax text).
  assert (state_recorded syntax
            (flush_element syntax (run syntax 0 (Py.split Py.nl text) initial))) as [H _].
  { apply flush_recorded, run_recorded. by split. }
  eapply Forall_impl; [exact H|]. intros e He. by apply annotate_recorded.
Qed.

(** C1, counterexample. The scenario text does not segment into an
    Instruction element on line 0, a Whitespace element at line 1 and a Text
    element on line 2 with variables [["name"]]. *)
Lemma scenario_not_three_elements :
  ¬ ∃ e0 e1 e2,
      parse_prompt scenario = [e0; e1; e2]
      ∧ type e0 = INSTRUCTION ∧ line_start e0 = 0 ∧ line_end e0 = 0
      ∧ type e1 = WHITESPACE ∧ line_start e1 = 1
      ∧ type e2 = TEXT ∧ line_start e2 = 2 ∧ line_end e2 = 2
      ∧ metadata e2 !! "variables" = Some (MList ["name"]).
Proof. intros (e0 & e1 & e2 & H & _). vm_compute in H. discriminate H. Qed.

(** C1, as amended. The scenario text segments into exactly one element:
    an Instruction element that covers lines 0 to 2, whose content is the
    whole text (the blank line and the placeholder line join the open
    instruction run) and whose variables metadata is
    [["name"; "name"; "name"]], one name per pattern family that matches
    the placeholder. *)
Theorem scenario_one_instruction :
  parse_prompt scenario =
    [ mkElement INSTRUCTION scenario 0 2 scenario
        (<[ "variables" := MList ["name"; "name"; "name"] ]>
           {[ "syntax" := MStr "jinja2" ]}) ].
Proof. vm_compute. reflexivity. Qed.

(** C10. Comparing two empty texts gives a result with no element diff,
    empty old, new, added and removed variable sets, similarity 1 and no
    change. *)
Theorem compare_empty_texts (old_label new_label : string) :
  ∃ r, diff_prompts "" "" old_label new_label = Some r
       ∧ element_diffs r = []
       ∧ old_variables r = ∅ ∧ new_variables r = ∅
       ∧ added_variables r = ∅ ∧ removed_variables r = ∅
       ∧ similarity r = 1%Q
       ∧ has_changes r = false.
Proof.
  exists (mkResult old_label new_label [] ∅ ∅ ∅ ∅ 1%Q).
  split; [vm_compute; reflexivity | by repeat split].
Qed.

(** ** The aligner *)

Lemma filter_ext_elem {A} (P Q : A → Prop)
    `{!∀ x, Decision (P x), !∀ x, Decision (Q x)} (l : list A) :
  (∀ x, x ∈ l → (P x ↔ Q x)) → filter P l = filter Q l.
Proof.
  induction l as [|a l IH]; intros Hext; [done|].
  rewrite !filter_cons.
  rewrite IH by (intros x Hx; apply Hext; by right).
  apply decide_ext, Hext. by left.
Qed.

Lemma filter_none {A} (P : A → Prop) `{!∀ x, Decision (P x)} (l : list A) :
  (∀ x, x ∈ l → ¬ P x) → filter P l = [].
Proof.
  induction l as [|a l IH]; intros Hno; [done|].
  rewrite filter_cons, decide_False by (apply Hno; by left).
  apply IH. intros x Hx. apply Hno. by right.
Qed.

Section alignment.
Variables old_filtered new_filtered : list item.
Hypothesis old_distinct : NoDup old_filtered.*1.
Hypothesis new_distinct : NoDup new_filtered.*1.

(** What the passes keep true: every pair built so far has both sides, the
    old sides are the old items marked used and the new sides are the new
    items marked used. *)
Definition aligned_used (st : astate) : Prop :=
  Forall (fun p : pairing => is_Some (fst p) ∧ is_Some (snd p)) (aligned st)
  ∧ omap fst (aligned st) ≡ₚ filter (fun p : item => fst p ∈ old_used st) old_filtered
  ∧ omap snd (aligned st) ≡ₚ filter (fun p : item => fst p ∈ new_used st) new_filtered.

Lemma filter_used_insert (l : list item) (used : gset nat) (x : item) :
  NoDup l.*1 → x ∈ l → fst x ∉ used →
  filter (fun p : item => fst p ∈ used ∪ {[ fst x ]}) l
    ≡ₚ filter (fun p : item => fst p ∈ used) l ++ [x].
Proof.
  induction l as [|y l IH]; intros Hnd Hin Hx; [by apply elem_of_nil in Hin|].
  simpl in Hnd. apply NoDup_cons in Hnd as [Hy Hnd].
  rewrite !filter_cons.
  destruct (decide (y = x)) as [->|Hne].
  - rewrite decide_True by set_solver. rewrite decide_False by done.
    assert (filter (fun p : item => fst p ∈ used ∪ {[ fst x ]}) l
            = filter (fun p : item => fst p ∈ used) l) as ->.
    { apply filter_ext_elem. intros z Hz.
      assert (fst z ≠ fst x) by (intros Heq; apply Hy; rewrite <- Heq; by apply list_elem_of_fmap_2).
      set_solver. }
    by rewrite <- Permutation_cons_append.
  - apply elem_of_cons in Hin as [Heq|Hin]; [congruence|].
    assert (fst y ≠ fst x).
    { intros Heq. apply Hy. rewrite Heq. by apply list_elem_of_fmap_2. }
    destruct (decide (fst y ∈ used)).
    + rewrite decide_True by set_solver. simpl. f_equiv. by apply IH.
    + rewrite decide_False by set_solver. by apply IH.
Qed.

Lemma matched_used old new st :
  aligned_used st →
  old ∈ old_filtered → fst old ∉ old_used st →
  new ∈ new_filtered → fst new ∉ new_used st →
  aligned_used (matched old new st).
Proof.
  intros (Hboth & Hold & Hnew) Ho Hou Hn Hnu. unfold matched. repeat split; simpl.
  - apply Forall_app; split; [done|]. apply Forall_singleton; simpl; eauto.
  - rewrite omap_app, Hold; simpl. by rewrite filter_used_insert.
  - rewrite omap_app, Hnew; simpl. by rewrite filter_used_insert.
Qed.

Lemma find_exact_unused new_elem used : ∀ l old,
  find_exact new_elem l used = Some old → old ∈ l ∧ fst old ∉ used.
Proof.
  induction l as [|[i e] l IH]; intros old H; simpl in H; [done|].
  repeat case_match; simplify_eq; try (destruct (IH _ H); split; [by right|done]).
  split; [by left|done].
Qed.

Lemma scan_similar_unused new_elem used : ∀ l best score old,
  fst (scan_similar new_elem l used best score) = Some old →
  best = Some old ∨ (old ∈ l ∧ fst old ∉ used).
Proof.
  induction l as [|[i e] l IH]; intros best score old H; simpl in H; [by left|].
  repeat case_match; destruct (IH _ _ _ H) as [?|[??]]; simplify_eq;
    first [by left | right; split; [by right|done] | right; split; [by left|done]].
Qed.

Lemma exact_pass_used : ∀ l st,
  aligned_used st →
  (∀ x, x ∈ l → x ∈ new_filtered) → NoDup l.*1 →
  (∀ x, x ∈ l → fst x ∉ new_used st) →
  aligned_used (foldl (exact_step old_filtered) st l).
Proof.
  induction l as [|new l IH]; intros st Hst Hin Hnd Hfresh; simpl; [done|].
  simpl in Hnd. apply NoDup_cons in Hnd as [Hnew Hnd].
  assert (∀ x, x ∈ l → fst x ≠ fst new) as Hother.
  { intros x Hx Heq. apply Hnew. rewrite <- Heq. by apply list_elem_of_fmap_2. }
  apply IH; [| set_solver | done |]; unfold exact_step;
    destruct (find_exact _ _ _) as [old|] eqn:Hfind; try done.
  - apply find_exact_unused in Hfind as [??].
    apply matched_used; [done..| set_solver | set_solver].
  - intros x Hx; simpl. specialize (Hother x Hx). set_solver.
  - set_solver.
Qed.

Lemma similar_pass_used : ∀ l st,
  aligned_used st →
  (∀ x, x ∈ l → x ∈ new_filtered) →
  aligned_used (foldl (similar_step old_filtered) st l).
Proof.
  induction l as [|new l IH]; intros st Hst Hin; simpl; [done|].
  apply IH; [|set_solver]. unfold similar_step.
  case_decide; [done|].
  destruct (fst (scan_similar _ _ _ _ _)) as [old|] eqn:Hscan; [|done].
  apply scan_similar_unused in Hscan as [?|[??]]; [done|].
  apply matched_used; [done..| set_solver | done].
Qed.

(** The state after both passes. *)
Definition passes : astate :=
  foldl (similar_step old_filtered)
        (foldl (exact_step old_filtered) (mkAlign [] ∅ ∅) new_filtered) new_filtered.

Lemma passes_used : aligned_used passes.
Proof.
  apply similar_pass_used; [|done].
  apply exact_pass_used; [|done|done|set_solver].
  repeat split; simpl; [done| |].
  - rewrite filter_none; [done|set_solver].
  - rewrite filter_none; [done|set_solver].
Qed.

End alignment.

Lemma filtered_distinct (els : list PromptElement) : NoDup (filtered els).*1.
Proof.
  unfold filtered.
  apply (sublist_NoDup _ (imap pair els).*1); [|apply fmap_sublist, sublist_filter].
  rewrite fmap_imap.
  rewrite (imap_ext _ (fun j _ => j)) by done.
  rewrite (imap_seq_0 els (fun j => j)), list_fmap_id. apply NoDup_seq.
Qed.

Lemma filtered_elem (els : list PromptElement) (i : nat) (e : PromptElement) :
  (i, e) ∈ filtered els ↔ els !! i = Some e ∧ type e ≠ WHITESPACE.
Proof.
  unfold filtered. rewrite list_elem_of_filter, elem_of_lookup_imap. simpl.
  split.
  - intros [Ht (j & y & Heq & Hj)]. by simplify_eq.
  - intros [Hi Ht]. eauto.
Qed.

Lemma items_distinct (l : list item) : NoDup l.*1 → NoDup l.
Proof. intros H. by apply NoDup_fmap_1 in H. Qed.





Lemma omap_fst_removed (l : list item) :
  omap fst (map (fun old : item => (Some old, None) : pairing) l) = l.
Proof. induction l as [|x l IH]; [done|]. simpl. by f_equal. Qed.

Lemma omap_fst_added (l : list item) :
  omap fst (map (fun new : item => (None, Some new) : pairing) l) = [].
Proof. induction l as [|x l IH]; [done|]. done. Qed.

Lemma omap_snd_removed (l : list item) :
  omap snd (map (fun old : item => (Some old, None) : pairing) l) = [].
Proof. induction l as [|x l IH]; [done|]. done. Qed.

Lemma omap_snd_added (l : list item) :
  omap snd (map (fun new : item => (None, Some new) : pairing) l) = l.
Proof. induction l as [|x l IH]; [done|]. simpl. by f_equal. Qed.

(** The old sides of the aligned pairs are the old elements that are not
    Whitespace, each once; so are the new sides. *)
Lemma align_old_sides (old_elements new_elements : list PromptElement) :
  omap fst (align_indexed old_elements new_elements) ≡ₚ filtered old_elements.
Proof.
  unfold align_indexed.
  pose proof (passes_used (filtered old_elements) (filtered new_elements)
                (filtered_distinct _) (filtered_distinct _)) as (_ & Hold & _).
  fold (passes (filtered old_elements) (filtered new_elements)).
  rewrite !omap_app, omap_fst_removed, omap_fst_added, app_nil_r, Hold.
  unfold remaining. apply filter_app_complement.
Qed.

Lemma align_new_sides (old_elements new_elements : list PromptElement) :
  omap snd (align_indexed old_elements new_elements) ≡ₚ filtered new_elements.
Proof.
  unfold align_indexed.
  pose proof (passes_used (filtered old_elements) (filtered new_elements)
                (filtered_distinct _) (filtered_distinct _)) as (_ & _ & Hnew).
  fold (passes (filtered old_elements) (filtered new_elements)).
  rewrite !omap_app, omap_snd_removed, omap_snd_added, Hnew. simpl.
  unfold remaining. apply filter_app_complement.
Qed.

(** No aligned pair is empty on both sides. *)
Lemma align_sides (old_elements new_elements : list PromptElement) :
  Forall (fun p : pairing => is_Some (fst p) ∨ is_Some (snd p))
         (align_indexed old_elements new_elements).
Proof.
  unfold align_indexed.
  pose proof (passes_used (filtered old_elements) (filtered new_elements)
                (filtered_distinct _) (filtered_distinct _)) as (Hboth & _ & _).
  fold (passes (filtered old_elements) (filtered new_elements)).
  repeat (apply Forall_app; split).
  - eapply Forall_impl; [exact Hboth|]. intros p [? _]. by left.
  - apply Forall_fmap, Forall_true. intros x. left. simpl. eauto.
  - apply Forall_fmap, Forall_true. intros x. right. simpl. eauto.
Qed.

(** [diff_prompts] never reads a pair with no side: the loop over the
    aligned pairs builds a diff for each of them. *)
Lemma element_diffs_total (old_elements new_elements : list PromptElement) :
  is_Some (mapM element_diff (align_elements old_elements new_elements)).
Proof.
  apply mapM_is_Some. unfold align_elements. apply Forall_fmap.
  eapply Forall_impl; [apply align_sides|].
  intros [[o|] [n|]] [Ho|Hn]; simpl; unfold element_diff, forget; simpl;
    try case_bool_decide; eauto; by destruct Ho || by destruct Hn.
Qed.



(** C7. For all texts A and B and any labels, the added variables of
    comparing A with B are the removed variables of comparing B with A
    (and both comparisons return a result). *)
Theorem added_is_removed_of_swap (A B la lb la' lb' : string) :
  ∃ r1 r2,
    diff_prompts A B la lb = Some r1
    ∧ diff_prompts B A la' lb' = Some r2
    ∧ added_variables r1 = removed_variables r2.
Proof.
  unfold diff_prompts.
  destruct (element_diffs_total (parse_prompt A) (parse_prompt B)) as [ds1 ->].
  destruct (element_diffs_total (parse_prompt B) (parse_prompt A)) as [ds2 ->].
  simpl. eexists _, _. repeat split.
Qed.

(** C5. The diffs a comparison returns are the classifications of the
    aligned pairs, one diff for each pair the aligner returns for the two
    segmentations, in the order of the pairs: a pair with only the new
    side gives Added, a pair with only the old side gives Removed, a pair
    with both sides and identical content gives Unchanged, a pair with
    both sides and different content gives Modified with the similarity of
    the two contents under ['similarity'] in the details; and the details
    of a diff have a ['similarity'] entry only when the change is
    Modified. *)
Theorem diff_builder_classifies (old_text new_text old_label new_label : string) :
  ∃ r,
    diff_prompts old_text new_text old_label new_label = Some r
    ∧ Forall2
        (fun (p : option PromptElement * option PromptElement) (d : ElementDiff) =>
           match p with
           | (None, Some new_elem) => change_type d = ADDED
           | (Some old_elem, None) => change_type d = REMOVED
           | (Some old_elem, Some new_elem) =>
               (content old_elem = content new_elem → change_type d = UNCHANGED)
               ∧ (content old_elem ≠ content new_elem →
                  change_type d = MODIFIED
                  ∧ details d !! "similarity"
                    = Some (compute_similarity (content old_elem) (content new_elem)))
           | (None, None) => False
           end
           ∧ (is_Some (details d !! "similarity") ↔ change_type d = MODIFIED))
        (align_elements (parse_prompt old_text) (parse_prompt new_text))
        (element_diffs r).
Proof.
  unfold diff_prompts.
  destruct (element_diffs_total (parse_prompt old_text) (parse_prompt new_text))
    as [ds Hds].
  rewrite Hds. simpl. eexists. split; [reflexivity|]. simpl.
  apply mapM_Some in Hds. eapply Forall2_impl; [exact Hds|].
  intros [[o|] [n|]] d Hd; simpl in Hd; try case_bool_decide; simplify_eq; simpl.
  - split; [split; [done|]|].
    + intros Hne. done.
    + rewrite lookup_empty. split; [by intros [? ?]|done].
  - split; [split; [done|]|].
    + intros _. split; [done|]. apply lookup_singleton_eq.
    + rewrite lookup_singleton_eq. split; [done|eauto].
  - split; [done|]. rewrite lookup_empty. split; [by intros [? ?]|done].
  - split; [done|]. rewrite lookup_empty. split; [by intros [? ?]|done].
Qed.

(** ** The loop of the segmenter *)

Lemma run_app (syntax : string) (pre post : list string) : ∀ i st,
  run syntax i (pre ++ post) st = run syntax (i + length pre) post (run syntax i pre st).
Proof.
  induction pre as [|l pre IH]; intros i st; simpl.
  - by rewrite Nat.add_0_r.
  - rewrite IH. by rewrite Nat.add_succ_r.
Qed.

(** A blank line is no fence, role marker, comment, example marker or
    instruction line. *)
Lemma blank_classes :
  is_fence "" = false ∧ is_role_marker "" = None ∧ is_comment "" = false
  ∧ is_example_marker "" = false ∧ is_instruction_line "" = false.
Proof. repeat split; vm_compute; reflexivity. Qed.

Lemma step_blank (syntax : string) (i : nat) (line : string) (st : pstate) :
  Py.strip line = "" →
  step syntax i line st =
    if in_code_block st then push_line line st
    else
      set_in_example false
        match current_element_lines st with
        | _ :: _ => push_line line st
        | [] =>
            match elements st with
            | _ :: _ => emit (mkElement WHITESPACE EmptyString i i line ∅) st
            | [] => st
            end
        end.
Proof.
  intros Hblank. unfold step. rewrite Hblank.
  destruct blank_classes as (-> & -> & -> & -> & ->). done.
Qed.

(** The state the loop has reached after the lines [pre], and the state
    after one more line. *)
Definition reached (syntax : string) (pre : list string) : pstate :=
  run syntax 0 pre initial.

Lemma reached_snoc (syntax : string) (pre : list string) (line : string) :
  reached syntax (pre ++ [line]) = step syntax (length pre) line (reached syntax pre).
Proof. unfold reached. by rewrite run_app. Qed.

(** C2, counterexample. After the line [hello] a run is open; the blank
    line that follows does not flush it and is not emitted as a Whitespace
    element: no element exists after it and the run holds both lines. The
    text [hello] followed by a line break segments into one Text element
    that covers lines 0 and 1. *)
Lemma blank_line_does_not_flush :
  elements (reached "plain" ["hello"; ""]) = []
  ∧ current_element_lines (reached "plain" ["hello"; ""]) = ["hello"; ""]
  ∧ parse_prompt ("hello" +:+ nl_str)
    = [ mkElement TEXT ("hello" +:+ nl_str) 0 1 ("hello" +:+ nl_str)
          {[ "syntax" := MStr "plain" ]} ].
Proof. repeat split; vm_compute; reflexivity. Qed.

(** C2, as amended. For every blank line the segmenter processes, with
    [st] the state reached before it and [st'] the state after it. Outside
    a fenced code block: when an accumulation is open the line is appended
    to it and the accumulation stays open (it is not flushed, no element is
    emitted); when none is open the line is emitted as a zero-content
    Whitespace element, unless no element exists yet, in which case nothing
    is emitted; in each case the inside-example flag is cleared. Inside a
    fenced code block the line is appended to the accumulation and nothing
    else changes. *)
Theorem blank_line_step (syntax : string) (pre : list string) (line : string) :
  Py.strip line = "" →
  let st := reached syntax pre in
  let st' := reached syntax (pre ++ [line]) in
  let i := length pre in
  (in_code_block st = false →
     in_example st' = false
     ∧ in_code_block st' = false
     ∧ current_element_type st' = current_element_type st
     ∧ element_start_line st' = element_start_line st
     ∧ (current_element_lines st ≠ [] →
          current_element_lines st' = current_element_lines st ++ [line]
          ∧ elements st' = elements st)
     ∧ (current_element_lines st = [] → elements st ≠ [] →
          current_element_lines st' = []
          ∧ elements st' = elements st ++ [mkElement WHITESPACE "" i i line ∅])
     ∧ (current_element_lines st = [] → elements st = [] →
          current_element_lines st' = [] ∧ elements st' = []))
  ∧ (in_code_block st = true →
       st' = mkState (elements st) (in_example st) true
                     (current_element_lines st ++ [line])
                     (current_element_type st) (element_start_line st)).
Proof.
  intros Hblank st st' i. subst st'. rewrite reached_snoc. fold st. fold i.
  rewrite step_blank by done. split; intros Hcode; rewrite Hcode.
  - destruct (current_element_lines st) as [|l ls] eqn:Hlines;
      destruct (elements st) as [|e es] eqn:Hels; simpl;
      rewrite ?Hlines, ?Hels; repeat split; try done; intros; try done.
  - unfold push_line. by rewrite Hcode.
Qed.

(** A witness of [blank_line_step]: the blank line after the line [hello]
    joins the open run. *)
Lemma blank_line_step_witness :
  Py.strip "" = ""
  ∧ current_element_lines (reached "plain" (["hello"] ++ [""])) = ["hello"; ""]
  ∧ elements (reached "plain" (["hello"] ++ [""])) = [].
Proof.
  split; [reflexivity|].
  destruct (blank_line_step "plain" ["hello"] "" eq_refl) as [Hout _].
  destruct (Hout eq_refl) as (_ & _ & _ & _ & Happend & _).
  assert (current_element_lines (reached "plain" ["hello"]) ≠ []) as Hopen
    by discriminate.
  exact (Happend Hopen).
Defined.

(** ** Fenced blocks *)

Definition fence_line (line : string) : bool := is_fence (Py.strip line).

Lemma step_fence_open (syntax : string) (i : nat) (line : string) (st : pstate) :
  fence_line line = true → in_code_block st = false →
  step syntax i line st =
    mkState (elements (flush_element syntax st)) (in_example st) true
            [line] (Some EXAMPLE) i.
Proof.
  intros Hf Hc. unfold step. unfold fence_line in Hf. rewrite Hf.
  unfold flush_element; simpl. rewrite Hc; simpl.
  destruct (current_element_lines st) eqn:Hl;
    unfold push_line, open_run, set_in_code_block; simpl; by rewrite ?Hl.
Qed.

Lemma step_inside (syntax : string) (i : nat) (line : string) (st : pstate) :
  fence_line line = false → in_code_block st = true →
  step syntax i line st = push_line line st.
Proof. intros Hf Hc. unfold step. unfold fence_line in Hf. by rewrite Hf, Hc. Qed.

(** Inside a fenced block, lines that are no fence only join the run. *)
Lemma run_inside (syntax : string) (rest : list string) : ∀ i st,
  in_code_block st = true →
  Forall (fun line => fence_line line = false) rest →
  run syntax i rest st =
    mkState (elements st) (in_example st) true
            (current_element_lines st ++ rest)
            (current_element_type st) (element_start_line st).
Proof.
  induction rest as [|line rest IH]; intros i st Hc Hrest; simpl.
  - rewrite app_nil_r. destruct st; simpl in *. by rewrite Hc.
  - apply Forall_cons in Hrest as [Hline Hrest].
    rewrite step_inside by done. rewrite IH by done. simpl.
    by rewrite <- app_assoc.
Qed.

(** The code-block flag after some lines is the parity of the number of
    fence lines among them. *)
Lemma step_code_flag (syntax : string) (i : nat) (line : string) (st : pstate) :
  in_code_block (step syntax i line st)
  = xorb (fence_line line) (in_code_block st).
Proof.
  unfold step, fence_line. destruct (is_fence (Py.strip line)) eqn:Hf; simpl.
  - unfold flush_element.
    destruct (in_code_block st) eqn:Hc; simpl;
      destruct (current_element_lines st) eqn:Hl; simpl; by rewrite ?Hl, ?Hc.
  - unfold flush_element.
    repeat case_match; simpl; try done;
      destruct (current_element_lines st) eqn:Hl; simpl; by rewrite ?Hl.
Qed.

Definition fences (lines : list string) : nat :=
  length (filter (fun line => fence_line line = true) lines).

Lemma run_code_flag (syntax : string) (lines : list string) : ∀ i st,
  in_code_block (run syntax i lines st)
  = xorb (Nat.odd (fences lines)) (in_code_block st).
Proof.
  unfold fences.
  induction lines as [|line lines IH]; intros i st; simpl; [done|].
  rewrite IH, step_code_flag, filter_cons.
  destruct (fence_line line) eqn:Hf.
  - rewrite decide_True by done. cbn [length]. rewrite Nat.odd_succ.
    rewrite <- Nat.negb_odd. by destruct (Nat.odd _), (in_code_block st).
  - rewrite decide_False by done. done.
Qed.

Lemma annotate_fields (e : PromptElement) :
  type (annotate e) = type e ∧ content (annotate e) = content e
  ∧ line_start (annotate e) = line_start e ∧ line_end (annotate e) = line_end e
  ∧ raw (annotate e) = raw e.
Proof. unfold annotate. by repeat case_match. Qed.

(** C9. A text whose lines are [pre], then a fence line that opens a
    block (the fence lines of [pre] pair up), then lines [rest] none of
    which is a fence: segmentation returns the elements of [pre] followed
    by a single Example element that holds every line from the opening
    fence through the end of the input. *)
Theorem unterminated_fence (text : string) (pre : list string) (fence : string)
    (rest : list string) :
  Py.split Py.nl text = pre ++ fence :: rest →
  fence_line fence = true →
  Nat.even (fences pre) = true →
  Forall (fun line => fence_line line = false) rest →
  ∃ e,
    parse_prompt text
    = map annotate
        (elements (flush_element (detect_template_syntax text)
                     (reached (detect_template_syntax text) pre)))
      ++ [e]
    ∧ type e = EXAMPLE
    ∧ content e = Py.join nl_str (fence :: rest)
    ∧ line_start e = length pre
    ∧ line_end e = length pre + length rest.
Proof.
  intros Hlines Hfence Heven Hrest.
  unfold parse_prompt. rewrite Hlines.
  set (syntax := detect_template_syntax text).
  rewrite run_app. cbn [run]. fold (reached syntax pre).
  assert (in_code_block (reached syntax pre) = false) as Hout.
  { unfold reached. rewrite run_code_flag. simpl.
    rewrite <- Nat.negb_even, Heven. done. }
  rewrite step_fence_open by done.
  rewrite run_inside by done.
  unfold flush_element at 1. cbn -[flush_element Py.join].
  rewrite map_app. cbn -[flush_element Py.join annotate].
  eexists. split; [reflexivity|].
  destruct (annotate_fields
              (mkElement EXAMPLE (Py.join nl_str (fence :: rest)) (length pre)
                 (length pre + S (length rest) - 1) (Py.join nl_str (fence :: rest))
                 {[ "syntax" := MStr syntax ]})) as (-> & -> & -> & -> & _).
  cbn -[Py.join]. repeat split. lia.
Qed.

(** A text with an opening fence on its second line and no closing fence. *)
Definition open_fence_text : string :=
  "intro" +:+ nl_str +:+ "```python" +:+ nl_str +:+ "print(1)" +:+ nl_str
  +:+ nl_str +:+ "You must stop".

(** A witness of [unterminated_fence]: the lines 1 to 4 of
    [open_fence_text] form one Example element. *)
Lemma unterminated_fence_witness :
  ∃ e,
    parse_prompt open_fence_text
    = map annotate
        (elements (flush_element (detect_template_syntax open_fence_text)
                     (reached (detect_template_syntax open_fence_text) ["intro"])))
      ++ [e]
    ∧ type e = EXAMPLE
    ∧ content e = Py.join nl_str ["```python"; "print(1)"; ""; "You must stop"]
    ∧ line_start e = 1
    ∧ line_end e = 4.
Proof.
  apply (unterminated_fence open_fence_text ["intro"] "```python"
           ["print(1)"; ""; "You must stop"]).
  - reflexivity.
  - reflexivity.
  - reflexivity.
  - repeat constructor.
Defined.

(** ** The similarity pass *)

(** The old items the second pass looks at for [new_elem]: unused, of the
    same type, in the order of the old sequence; and the score of one. *)
Definition candidates (new_elem : PromptElement) (old_filtered : list item)
    (used : gset nat) : list item :=
  filter (fun p : item => (fst p ∉ used) ∧ type (snd p) = type new_elem) old_filtered.

Definition score (new_elem : PromptElement) (p : item) : Q :=
  compute_similarity (content (snd p)) (content new_elem).

#[local] Instance Qlt_dec (x y : Q) : Decision (x < y)%Q.
Proof.
  destruct (Qlt_le_dec x y) as [Hlt|Hle]; [by left|].
  right. by apply Qle_not_lt.
Defined.

Section similar.
Variable new_elem : PromptElement.

(** The scan of [scan_similar] over the candidates alone. *)
Fixpoint best_of (cands : list item) (best_match : option item) (best_score : Q)
    : option item * Q :=
  match cands with
  | [] => (best_match, best_score)
  | p :: rest =>
      if Qlt_le_dec best_score (score new_elem p)
      then best_of rest (Some p) (score new_elem p)
      else best_of rest best_match best_score
  end.

Lemma scan_similar_candidates (used : gset nat) : ∀ old_filtered best_match best_score,
  scan_similar new_elem old_filtered used best_match best_score
  = best_of (candidates new_elem old_filtered used) best_match best_score.
Proof.
  unfold candidates.
  induction old_filtered as [|[i e] l IH]; intros bm bs; [done|].
  rewrite filter_cons. simpl.
  destruct (decide (i ∈ used)).
  - rewrite decide_False by tauto. apply IH.
  - case_bool_decide.
    + rewrite decide_True by done. simpl. unfold score at 1 2. simpl.
      destruct (Qlt_le_dec _ _); apply IH.
    + rewrite decide_False by tauto. apply IH.
Qed.

Lemma best_of_none : ∀ cands best_match best_score,
  Forall (fun p => (score new_elem p <= best_score)%Q) cands →
  best_of cands best_match best_score = (best_match, best_score).
Proof.
  induction cands as [|p cands IH]; intros bm bs Hall; [done|].
  apply Forall_cons in Hall as [Hp Hall]. simpl.
  destruct (Qlt_le_dec bs (score new_elem p)); [lra|]. by apply IH.
Qed.

Lemma best_of_first_max : ∀ pre best post best_match best_score,
  (best_score < score new_elem best)%Q →
  Forall (fun p => (score new_elem p < score new_elem best)%Q) pre →
  Forall (fun p => (score new_elem p <= score new_elem best)%Q) post →
  best_of (pre ++ best :: post) best_match best_score
  = (Some best, score new_elem best).
Proof.
  induction pre as [|p pre IH]; intros best post bm bs Hbs Hpre Hpost.
  - simpl. destruct (Qlt_le_dec bs (score new_elem best)); [|lra].
    by apply best_of_none.
  - apply Forall_cons in Hpre as [Hp Hpre]. simpl.
    destruct (Qlt_le_dec bs (score new_elem p)); by apply IH.
Qed.

(** A list with a score above [bound] has a first maximum. *)
Lemma first_max_exists (bound : Q) : ∀ cands,
  Exists (fun p => (bound < score new_elem p)%Q) cands →
  ∃ pre best post,
    cands = pre ++ best :: post
    ∧ (bound < score new_elem best)%Q
    ∧ Forall (fun p => (score new_elem p < score new_elem best)%Q) pre
    ∧ Forall (fun p => (score new_elem p <= score new_elem best)%Q) post.
Proof.
  induction cands as [|p cands IH]; intros Hex; [by apply Exists_nil in Hex|].
  destruct (decide (Exists (fun q => (score new_elem p < score new_elem q)%Q) cands))
    as [Hbetter|Hnone].
  - destruct IH as (pre & best & post & -> & Hb & Hpre & Hpost).
    { apply Exists_cons in Hex as [Hp|Hc]; [|done].
      eapply Exists_impl; [exact Hbetter|]. intros q Hq. simpl in Hq. lra. }
    exists (p :: pre), best, post. repeat split; [done| |done].
    apply Forall_cons; split; [|done].
    apply Exists_exists in Hbetter as (q & Hq & Hlt).
    apply elem_of_app in Hq as [Hq|Hq].
    + rewrite Forall_forall in Hpre. specialize (Hpre q Hq). simpl in Hpre. lra.
    + apply elem_of_cons in Hq as [->|Hq]; [done|].
      rewrite Forall_forall in Hpost. specialize (Hpost q Hq). simpl in Hpost. lra.
  - exists [], p, cands. apply not_Exists_Forall in Hnone; [|intros q; apply _].
    repeat split; [| done |].
    + apply Exists_cons in Hex as [Hp|Hc]; [done|].
      apply Exists_exists in Hc as (q & Hq & Hlt).
      rewrite Forall_forall in Hnone. specialize (Hnone q Hq). simpl in Hnone. lra.
    + eapply Forall_impl; [exact Hnone|]. intros q Hq. simpl in Hq. lra.
Qed.

End similar.

(** The state of the aligner after the exact pass, and the state after
    the similarity pass has then handled the new items [pre]. *)
Definition exact_pass (old_elements new_elements : list PromptElement) : astate :=
  foldl (exact_step (filtered old_elements)) (mkAlign [] ∅ ∅) (filtered new_elements).

Definition similar_reached (old_elements new_elements : list PromptElement)
    (pre : list item) : astate :=
  foldl (similar_step (filtered old_elements)) (exact_pass old_elements new_elements) pre.

(** The similarity pass only appends pairs, and marks as used only new
    items it handles. *)
Lemma similar_step_grows (old_filtered : list item) (st : astate) (new : item) :
  (∃ suffix, aligned (similar_step old_filtered st new) = aligned st ++ suffix)
  ∧ new_used st ⊆ new_used (similar_step old_filtered st new)
  ∧ new_used (similar_step old_filtered st new) ⊆ new_used st ∪ {[ fst new ]}.
Proof.
  unfold similar_step. case_decide.
  { split; [exists []; by rewrite app_nil_r|]. set_solver. }
  destruct (fst (scan_similar _ _ _ _ _)) as [old|]; simpl.
  - split; [by eexists|]. set_solver.
  - split; [exists []; by rewrite app_nil_r|]. set_solver.
Qed.

Lemma similar_pass_grows (old_filtered : list item) (l : list item) : ∀ st,
  (∃ suffix, aligned (foldl (similar_step old_filtered) st l) = aligned st ++ suffix)
  ∧ new_used st ⊆ new_used (foldl (similar_step old_filtered) st l)
  ∧ ∀ i, i ∈ new_used (foldl (similar_step old_filtered) st l) →
         i ∈ new_used st ∨ i ∈ l.*1.
Proof.
  induction l as [|new l IH]; intros st; simpl.
  - split; [exists []; by rewrite app_nil_r|]. split; [done|]. auto.
  - destruct (IH (similar_step old_filtered st new)) as ([s2 H2] & Hsub & Hnew).
    destruct (similar_step_grows old_filtered st new) as ([s1 H1] & Hsub1 & Hnew1).
    split; [exists (s1 ++ s2); by rewrite H2, H1, <- app_assoc|].
    split; [set_solver|].
    intros i Hi. destruct (Hnew i Hi) as [Hi'|Hi']; [|right; by right].
    apply Hnew1 in Hi'. apply elem_of_union in Hi' as [?|Hi']; [by left|].
    apply elem_of_singleton in Hi' as ->. right. by left.
Qed.

(** C6. The similarity pass of the aligner. The aligner runs it after the
    exact pass, over the new items in order, and reads its result off the
    state the pass ends in. Let [st] be the state when the pass comes to
    the new item [new], and [st'] the state after it. The item is matched
    at this point exactly when the exact pass has matched it, and it is
    then skipped. Otherwise the candidates are all the old items that are
    unused in [st] and of the same kind, in old-sequence order. When none
    scores strictly above 0.5 nothing is matched, and the aligner returns
    the item as added. When some does, the match is the first candidate
    with the largest score (the candidates before it score strictly less,
    the ones after it at most as much), the pair is appended, both indices
    are marked used, and the aligner returns the pair. *)
Theorem similarity_pass_step (old_elements new_elements : list PromptElement)
    (pre : list item) (new : item) (post : list item) :
  filtered new_elements = pre ++ new :: post →
  let old_filtered := filtered old_elements in
  let exact := exact_pass old_elements new_elements in
  let st := similar_reached old_elements new_elements pre in
  let st' := similar_reached old_elements new_elements (pre ++ [new]) in
  let final := similar_reached old_elements new_elements (filtered new_elements) in
  let cands := candidates (snd new) old_filtered (old_used st) in
  align_indexed old_elements new_elements
  = aligned final
    ++ map (fun old => (Some old, None)) (remaining old_filtered (old_used final))
    ++ map (fun new => (None, Some new))
           (remaining (filtered new_elements) (new_used final))
  ∧ (fst new ∈ new_used st ↔ fst new ∈ new_used exact)
  ∧ (fst new ∈ new_used exact → st' = st)
  ∧ (fst new ∉ new_used exact →
     (Forall (fun p => (score (snd new) p <= threshold)%Q) cands
      ∧ st' = st
      ∧ (None, Some new) ∈ align_indexed old_elements new_elements)
     ∨ (∃ before best after,
          cands = before ++ best :: after
          ∧ (threshold < score (snd new) best)%Q
          ∧ Forall (fun p => (score (snd new) p < score (snd new) best)%Q) before
          ∧ Forall (fun p => (score (snd new) p <= score (snd new) best)%Q) after
          ∧ aligned st' = aligned st ++ [(Some best, Some new)]
          ∧ old_used st' = old_used st ∪ {[ fst best ]}
          ∧ new_used st' = new_used st ∪ {[ fst new ]}
          ∧ (Some best, Some new) ∈ align_indexed old_elements new_elements)).
Proof.
  intros Hsplit old_filtered exact st st' final cands.
  assert (st' = similar_step old_filtered st new) as Hstep
    by (unfold st', similar_reached; by rewrite foldl_app).
  assert (final = foldl (similar_step old_filtered) st' post) as Hfinal.
  { unfold final, st', similar_reached.
    rewrite Hsplit, (cons_middle new pre post), app_assoc. by rewrite foldl_app. }
  assert (align_indexed old_elements new_elements
          = aligned final
            ++ map (fun old => (Some old, None)) (remaining old_filtered (old_used final))
            ++ map (fun new => (None, Some new))
                   (remaining (filtered new_elements) (new_used final))) as Hresult
    by reflexivity.
  pose proof (filtered_distinct new_elements) as Hnd.
  rewrite Hsplit, fmap_app, fmap_cons in Hnd.
  apply NoDup_app in Hnd as (_ & Hpre & Hnd). apply NoDup_cons in Hnd as [Hpost _].
  assert (fst new ∉ pre.*1) as Hpre' by (intros Hin; by apply (Hpre (fst new)); [|left]).
  destruct (similar_pass_grows old_filtered pre exact) as (_ & Hsub & Honly).
  fold (similar_reached old_elements new_elements pre) in Hsub, Honly. fold st in Hsub, Honly.
  assert (fst new ∈ new_used st ↔ fst new ∈ new_used exact) as Hiff.
  { split; [|by apply Hsub]. intros Hin. by destruct (Honly _ Hin). }
  split; [done|]. split; [done|]. split.
  { intros Hin. rewrite Hstep. unfold similar_step. rewrite decide_True; [done|].
    by apply Hiff. }
  intros Hnew. rewrite <- Hiff in Hnew.
  destruct (similar_pass_grows old_filtered post st') as ([suffix Hsuffix] & _ & Hlater).
  rewrite <- Hfinal in Hsuffix, Hlater.
  destruct (decide (Exists (fun p => (threshold < score (snd new) p)%Q) cands))
    as [Hex|Hnone].
  - right. apply first_max_exists in Hex as (before & best & after & Hc & Hb & Hbefore & Hafter).
    exists before, best, after.
    assert (st' = matched best new st) as Hmatched.
    { rewrite Hstep. unfold similar_step. rewrite decide_False by done.
      fold old_filtered. rewrite scan_similar_candidates. fold cands.
      by rewrite Hc, best_of_first_max. }
    repeat split; try done; try (by rewrite Hmatched).
    rewrite Hresult, Hsuffix, Hmatched. simpl. set_solver.
  - left. apply not_Exists_Forall in Hnone; [|intros q; apply _].
    assert (Forall (fun p => (score (snd new) p <= threshold)%Q) cands) as Hall.
    { eapply Forall_impl; [exact Hnone|]. intros q Hq. simpl in Hq.
      by apply Qnot_lt_le. }
    assert (st' = st) as Hsame.
    { rewrite Hstep. unfold similar_step. rewrite decide_False by done.
      fold old_filtered. rewrite scan_similar_candidates. fold cands.
      by rewrite best_of_none. }
    repeat split; try done.
    rewrite Hresult. apply elem_of_app. right. apply elem_of_app. right.
    apply list_elem_of_fmap. exists new. split; [done|].
    unfold remaining. apply list_elem_of_filter.
    split; [|rewrite Hsplit; set_solver].
    intros Hin. destruct (Hlater _ Hin) as [Hin'|Hin'].
    + rewrite Hsame in Hin'. done.
    + done.
Qed.

(** Two Text elements whose contents differ in their last character. *)
Definition greeting : PromptElement :=
  mkElement TEXT "hello world" 0 0 "hello world" ∅.

Definition greeting' : PromptElement :=
  mkElement TEXT "hello world!" 0 0 "hello world!" ∅.

(** A witness of [similarity_pass_step]: the exact pass leaves [greeting']
    unmatched, its only candidate [greeting] scores above 0.5, and the
    aligner returns the pair. *)
Lemma similarity_pass_step_witness :
  filtered [greeting'] = [] ++ (0, greeting') :: []
  ∧ (Some (0, greeting), Some (0, greeting')) ∈ align_indexed [greeting] [greeting'].
Proof.
  split; [reflexivity|].
  assert (candidates (snd (0, greeting')) (filtered [greeting])
            (old_used (similar_reached [greeting] [greeting'] []))
          = [(0, greeting)]) as Hcands by (vm_compute; reflexivity).
  assert (threshold < score greeting' (0%nat, greeting))%Q as Hscore
    by (vm_compute; reflexivity).
  assert (fst (0, greeting') ∉ new_used (exact_pass [greeting] [greeting'])) as Hnew
    by (vm_compute; intros Hin; discriminate Hin).
  pose proof (similarity_pass_step [greeting] [greeting'] [] (0, greeting') [] eq_refl)
    as H.
  cbv zeta in H. destruct H as (_ & _ & _ & H).
  destruct (H Hnew) as [(Hall & _)|(before & best & after & Hc & _ & _ & _ & _ & _ & _ & Hin)].
  - exfalso. rewrite Hcands in Hall. apply Forall_inv in Hall.
    exact (Qlt_not_le _ _ Hscore Hall).
  - rewrite Hcands in Hc.
    destruct before as [|x [|y before]]; [|discriminate Hc..].
    injection Hc as <- _. exact Hin.
Defined.

(** ** The matcher of [difflib] *)

Import Difflib.

(** A block inside a region. *)
Definition inside (r : region) (m : Match) : Prop :=
  let '(alo, ahi, blo, bhi) := r in
  let '(i, j, k) := m in
  alo ≤ i ∧ i + k ≤ ahi ∧ blo ≤ j ∧ j + k ≤ bhi.

Definition well_formed (r : region) : Prop :=
  let '(alo, ahi, blo, bhi) := r in alo ≤ ahi ∧ blo ≤ bhi.

Definition width_a (r : region) : nat := let '(alo, ahi, _, _) := r in ahi - alo.
Definition width_b (r : region) : nat := let '(_, _, blo, bhi) := r in bhi - blo.

Section longest_match.
Variables a b : list ascii.
Variables alo ahi blo bhi : nat.
Hypothesis a_range : alo ≤ ahi.
Hypothesis b_range : blo ≤ bhi.

(** The entries of [j2len] after a row: lengths of matches that end in the
    row, at most [n] long, that start at [blo] or later and end before
    [bhi]. *)
Definition row_bounded (n : nat) (j2len : gmap nat nat) : Prop :=
  ∀ j k, j2len !! j = Some k → 1 ≤ k ∧ k ≤ n ∧ k + blo ≤ j + 1 ∧ j < bhi.

Lemma row_bounded_empty n : row_bounded n ∅.
Proof. intros j k H. by rewrite lookup_empty in H. Qed.

Lemma row_bounded_mono n n' j2len :
  n ≤ n' → row_bounded n j2len → row_bounded n' j2len.
Proof. intros Hn H j k Hj. specialize (H j k Hj). lia. Qed.

Lemma j2lenget_bounded n j2len j :
  row_bounded n j2len → blo ≤ j →
  j2lenget j2len j ≤ n ∧ j2lenget j2len j + blo ≤ j.
Proof.
  intros H Hj. unfold j2lenget. destruct j as [|j']; [lia|].
  destruct (j2len !! j') as [k|] eqn:Hk; simpl; [|lia].
  specialize (H j' k Hk). lia.
Qed.

Lemma scan_row_bounded i j2len : ∀ js newj2len best,
  alo ≤ i → i < ahi →
  row_bounded (i - alo) j2len →
  row_bounded (i + 1 - alo) newj2len →
  inside (alo, ahi, blo, bhi) best →
  row_bounded (i + 1 - alo) (fst (scan_row blo bhi i js j2len newj2len best))
  ∧ inside (alo, ahi, blo, bhi) (snd (scan_row blo bhi i js j2len newj2len best)).
Proof.
  induction js as [|j js IH]; intros new best Hi Hi' Hold Hnew Hbest; simpl; [done|].
  destruct (j <? blo) eqn:Hj; [by apply IH|]. apply Nat.ltb_ge in Hj.
  destruct (bhi <=? j) eqn:Hj'; [done|]. apply Nat.leb_gt in Hj'.
  destruct (j2lenget_bounded _ _ j Hold Hj) as [Hk1 Hk2].
  apply IH; try done.
  - intros j0 k0. rewrite lookup_insert. case_decide; [|by apply Hnew].
    intros [= <-]. subst j0. lia.
  - destruct (size best <? j2lenget j2len j + 1); [|done].
    simpl. lia.
Qed.

Lemma row_bounded_step st i :
  alo ≤ i → i < ahi →
  row_bounded (i - alo) (fst st) → inside (alo, ahi, blo, bhi) (snd st) →
  row_bounded (i + 1 - alo) (fst (row a b blo bhi st i))
  ∧ inside (alo, ahi, blo, bhi) (snd (row a b blo bhi st i)).
Proof.
  intros Hi Hi' Hrow Hbest. unfold row. destruct (a !! i) as [c|].
  - by apply scan_row_bounded; try apply row_bounded_empty.
  - split; [apply row_bounded_empty | done].
Qed.

Lemma rows_bounded_from : ∀ n i st,
  alo ≤ i → i + n ≤ ahi →
  row_bounded (i - alo) (fst st) → inside (alo, ahi, blo, bhi) (snd st) →
  inside (alo, ahi, blo, bhi) (snd (foldl (row a b blo bhi) st (seq i n))).
Proof.
  induction n as [|n IH]; intros i st Hi Hn Hrow Hbest; simpl; [done|].
  destruct (row_bounded_step st i) as [Hrow' Hbest']; try done; try lia.
  apply IH; try done; try lia.
  by replace (S i - alo) with (i + 1 - alo) by lia.
Qed.

Lemma rows_inside : inside (alo, ahi, blo, bhi) (snd (rows a b alo ahi blo bhi)).
Proof.
  unfold rows. apply rows_bounded_from; [done | lia | apply row_bounded_empty |].
  simpl. lia.
Qed.

Lemma extend_left_inside junk : ∀ fuel best,
  inside (alo, ahi, blo, bhi) best →
  inside (alo, ahi, blo, bhi) (extend_left a b alo blo junk fuel best).
Proof.
  induction fuel as [|fuel IH]; intros [[i j] k] Hbest; simpl; [done|].
  destruct (_ && _) eqn:Hc; [|done].
  apply IH. simpl in *.
  repeat (apply andb_true_iff in Hc as [Hc ?]).
  apply Nat.ltb_lt in Hc. rewrite Nat.ltb_lt in *. lia.
Qed.

Lemma extend_right_inside junk : ∀ fuel best,
  inside (alo, ahi, blo, bhi) best →
  inside (alo, ahi, blo, bhi) (extend_right a b ahi bhi junk fuel best).
Proof.
  induction fuel as [|fuel IH]; intros [[i j] k] Hbest; simpl; [done|].
  destruct (_ && _) eqn:Hc; [|done].
  apply IH. simpl in *.
  repeat (apply andb_true_iff in Hc as [Hc ?]).
  apply Nat.ltb_lt in Hc. rewrite Nat.ltb_lt in *. lia.
Qed.

(** The block [find_longest_match] returns lies inside the region. *)
Lemma find_longest_match_inside :
  inside (alo, ahi, blo, bhi) (find_longest_match a b alo ahi blo bhi).
Proof.
  unfold find_longest_match.
  apply extend_right_inside, extend_left_inside, extend_right_inside,
    extend_left_inside, rows_inside.
Qed.

End longest_match.

Lemma total_app (l1 l2 : list Match) : total (l1 ++ l2) = total l1 + total l2.
Proof. unfold total. induction l1 as [|m l1 IH]; simpl; [done|]. rewrite IH. lia. Qed.

#[local] Instance total_Permutation : Proper ((≡ₚ) ==> (=)) total.
Proof.
  unfold total. induction 1 as [|m l1 l2 _ IH| |]; simpl; try lia.
Qed.

Section blocks.
Variables a b : list ascii.

Definition widths_a (queue : list region) : nat := foldr (fun r n => width_a r + n) 0 queue.
Definition widths_b (queue : list region) : nat := foldr (fun r n => width_b r + n) 0 queue.

(** The turns of the loop a queue still needs. *)
Definition turns (queue : list region) : nat :=
  foldr (fun r n => 2 * width_a r + 1 + n) 0 queue.

(** The blocks found are no longer, in all, than what the regions of the
    queue leave room for, in [a] and in [b]. *)
Lemma blocks_loop_total : ∀ fuel queue blocks,
  Forall well_formed queue →
  total (fst (blocks_loop a b fuel queue blocks)) ≤ total blocks + widths_a queue
  ∧ total (fst (blocks_loop a b fuel queue blocks)) ≤ total blocks + widths_b queue.
Proof.
  induction fuel as [|fuel IH]; intros queue blocks Hwf; simpl.
  { destruct queue; simpl; lia. }
  destruct queue as [|[[[alo ahi] blo] bhi] queue]; simpl; [lia|].
  apply Forall_cons in Hwf as [[Ha Hb] Hwf].
  pose proof (find_longest_match_inside a b alo ahi blo bhi Ha Hb) as Hin.
  destruct (find_longest_match a b alo ahi blo bhi) as [[i j] k]. simpl in Hin.
  destruct (k =? 0) eqn:Hk.
  { destruct (IH queue blocks Hwf). lia. }
  match goal with
  | |- context [blocks_loop a b fuel ?q ?bl] =>
      assert (Forall well_formed q ∧ widths_a q + k ≤ ahi - alo + widths_a queue
              ∧ widths_b q + k ≤ bhi - blo + widths_b queue) as (Hq & Hqa & Hqb);
      [| destruct (IH q bl Hq) ]
  end.
  - destruct ((alo <? i) && (blo <? j)) eqn:H1;
      destruct ((i + k <? ahi) && (j + k <? bhi)) eqn:H2;
      repeat (apply andb_true_iff in H1 as [H1 ?]);
      repeat (apply andb_true_iff in H2 as [H2 ?]);
      rewrite ?Nat.ltb_lt in *;
      (split; [repeat (apply Forall_cons; split; [simpl; lia|]); done | simpl; lia]).
  - rewrite total_app in *. simpl in *. unfold size in *. simpl in *. lia.
Qed.

(** With as many turns as the queue needs, the loop empties the queue. *)
Lemma blocks_loop_done : ∀ fuel queue blocks,
  Forall well_formed queue → turns queue ≤ fuel →
  snd (blocks_loop a b fuel queue blocks) = [].
Proof.
  induction fuel as [|fuel IH]; intros queue blocks Hwf Hfuel; simpl.
  { destruct queue as [|[[[alo ahi] blo] bhi] queue]; simpl in *; [done|lia]. }
  destruct queue as [|[[[alo ahi] blo] bhi] queue]; simpl; [done|].
  apply Forall_cons in Hwf as [[Ha Hb] Hwf]. simpl in Hfuel.
  pose proof (find_longest_match_inside a b alo ahi blo bhi Ha Hb) as Hin.
  destruct (find_longest_match a b alo ahi blo bhi) as [[i j] k]. simpl in Hin.
  destruct (k =? 0) eqn:Hk.
  { apply IH; [done|lia]. }
  apply Nat.eqb_neq in Hk.
  apply IH.
  - destruct ((alo <? i) && (blo <? j)) eqn:H1;
      destruct ((i + k <? ahi) && (j + k <? bhi)) eqn:H2;
      repeat (apply andb_true_iff in H1 as [H1 ?]);
      repeat (apply andb_true_iff in H2 as [H2 ?]);
      rewrite ?Nat.ltb_lt in *;
      repeat (apply Forall_cons; split; [simpl; lia|]); done.
  - destruct ((alo <? i) && (blo <? j)) eqn:H1;
      destruct ((i + k <? ahi) && (j + k <? bhi)) eqn:H2;
      repeat (apply andb_true_iff in H1 as [H1 ?]);
      repeat (apply andb_true_iff in H2 as [H2 ?]);
      rewrite ?Nat.ltb_lt in *; simpl; lia.
Qed.

(** The loop of [get_matching_blocks] ends within [enough] turns. *)
Lemma found_blocks_done :
  snd (blocks_loop a b (enough a) [(0, length a, 0, length b)] []) = [].
Proof.
  apply blocks_loop_done.
  - apply Forall_singleton. simpl. lia.
  - unfold enough. simpl. lia.
Qed.

Lemma found_blocks_total :
  total (found_blocks a b) ≤ length a ∧ total (found_blocks a b) ≤ length b.
Proof.
  unfold found_blocks.
  destruct (blocks_loop_total (enough a) [(0, length a, 0, length b)] []) as [Ha Hb].
  { apply Forall_singleton. simpl. lia. }
  simpl in *. lia.
Qed.

Lemma collapse_total : ∀ l cur non_adjacent,
  total (collapse cur l non_adjacent) = total non_adjacent + size cur + total l.
Proof.
  induction l as [|[[i2 j2] k2] l IH]; intros [[i1 j1] k1] acc; simpl.
  - destruct (k1 =? 0) eqn:Hk.
    + apply Nat.eqb_eq in Hk. unfold size; simpl. lia.
    + rewrite total_app. unfold size; simpl. lia.
  - destruct (_ && _).
    + rewrite IH. unfold size; simpl. lia.
    + rewrite IH. destruct (k1 =? 0) eqn:Hk.
      * apply Nat.eqb_eq in Hk. unfold size; simpl. lia.
      * rewrite total_app. unfold size; simpl. lia.
Qed.

(** Sorting and merging the blocks keeps their total size. *)
Lemma matching_blocks_total :
  total (get_matching_blocks a b) = total (found_blocks a b).
Proof.
  unfold get_matching_blocks.
  rewrite total_app, collapse_total, merge_sort_Permutation.
  unfold size; simpl. lia.
Qed.

End blocks.

Lemma calculate_ratio_bounds (matches length : nat) :
  2 * matches ≤ length → (0 <= calculate_ratio matches length <= 1)%Q.
Proof.
  intros H. unfold calculate_ratio. destruct (length =? 0) eqn:Hl; [lra|].
  apply Nat.eqb_neq in Hl.
  assert (0 < inject_Z (Z.of_nat length))%Q as Hpos.
  { rewrite <- (Zlt_Qlt 0). lia. }
  assert (0 <= inject_Z (Z.of_nat matches))%Q as Hm.
  { rewrite <- (Zle_Qle 0). lia. }
  assert (2 * inject_Z (Z.of_nat matches) <= inject_Z (Z.of_nat length))%Q as Hle.
  { change 2%Q with (inject_Z 2). rewrite <- inject_Z_mult, <- Zle_Qle. lia. }
  split.
  - apply Qle_shift_div_l; [done|]. lra.
  - apply Qle_shift_div_r; [done|]. lra.
Qed.

Lemma calculate_ratio_all (n : nat) :
  n ≠ 0 → (calculate_ratio n (n + n) == 1)%Q.
Proof.
  intros Hn. unfold calculate_ratio.
  destruct (n + n =? 0) eqn:Hl; [apply Nat.eqb_eq in Hl; lia|].
  rewrite Nat2Z.inj_add, inject_Z_plus.
  assert (0 < inject_Z (Z.of_nat n))%Q as Hpos.
  { rewrite <- (Zlt_Qlt 0). lia. }
  field. lra.
Qed.

Lemma ratio_bounds (a b : list ascii) : (0 <= ratio a b <= 1)%Q.
Proof.
  unfold ratio. apply calculate_ratio_bounds.
  rewrite matching_blocks_total.
  destruct (found_blocks_total a b). lia.
Qed.

(** *** A sequence against itself *)

Lemma elem_of_indices_from (c : ascii) (l : list ascii) : ∀ s j,
  j ∈ indices_from c s l ↔ s ≤ j ∧ l !! (j - s) = Some c.
Proof.
  induction l as [|x l IH]; intros s j; simpl.
  - rewrite elem_of_nil. naive_solver.
  - destruct (Ascii.eqb_spec x c) as [->|Hne].
    + rewrite elem_of_cons, IH. split.
      * intros [->|[Hs Hj]]; [by rewrite Nat.sub_diag|].
        split; [lia|]. by replace (j - s) with (S (j - S s)) by lia.
      * intros [Hs Hj]. destruct (decide (j = s)) as [|Hjs]; [by left|right].
        split; [lia|]. by replace (j - s) with (S (j - S s)) in Hj by lia.
    + rewrite IH. split.
      * intros [Hs Hj]. split; [lia|]. by replace (j - s) with (S (j - S s)) by lia.
      * intros [Hs Hj]. destruct (decide (j = s)) as [->|Hjs].
        { rewrite Nat.sub_diag in Hj. simpl in Hj. congruence. }
        split; [lia|]. by replace (j - s) with (S (j - S s)) in Hj by lia.
Qed.

Lemma indices_from_sorted (c : ascii) (l : list ascii) : ∀ s,
  StronglySorted lt (indices_from c s l).
Proof.
  induction l as [|x l IH]; intros s; simpl; [constructor|].
  destruct (Ascii.eqb x c); [|apply IH].
  constructor; [apply IH|].
  apply Forall_forall. intros j Hj. apply elem_of_indices_from in Hj. lia.
Qed.

Section diagonal.
Variable a : list ascii.

(** The element at [i] exists and is not popular. *)
Definition kept (i : nat) : bool :=
  match a !! i with
  | Some c => negb (popular a c)
  | None => false
  end.

(** The number of consecutive kept elements that end at [i]. *)
Fixpoint run_len (i : nat) : nat :=
  match i with
  | 0 => if kept 0 then 1 else 0
  | S i' => if kept (S i') then S (run_len i') else 0
  end.

(** The same for the element before [i]. *)
Definition prev_len (i : nat) : nat :=
  match i with
  | 0 => 0
  | S i' => run_len i'
  end.

Lemma run_len_kept i : kept i = true → run_len i = S (prev_len i).
Proof. intros H. destruct i; simpl; by rewrite H. Qed.

Lemma run_len_dropped i : kept i = false → run_len i = 0.
Proof. intros H. destruct i; simpl; by rewrite H. Qed.

(** What holds of [j2len] and [best] before the row [i]: no entry is
    longer than the run that ends before [i] or than the run that ends at
    its own offset, the entry on the diagonal is that run, and [best] is on
    the diagonal and as long as every run seen so far. *)
Definition row_diagonal (i : nat) (j2len : gmap nat nat) : Prop :=
  (∀ j k, j2len !! j = Some k → 1 ≤ k ∧ k ≤ prev_len i ∧ k ≤ run_len j)
  ∧ j2lenget j2len i = prev_len i.

Definition best_diagonal (i : nat) (best : Match) : Prop :=
  ∃ d s, best = (d, d, s) ∧ ∀ j, j < i → run_len j ≤ s.

Lemma j2lenget_diagonal i j2len j :
  row_diagonal i j2len →
  j2lenget j2len j ≤ prev_len i ∧ j2lenget j2len j ≤ prev_len j.
Proof.
  intros [H _]. unfold j2lenget. destruct j as [|j']; simpl; [lia|].
  destruct (j2len !! j') as [k|] eqn:Hk; simpl; [|lia].
  specialize (H j' k Hk). lia.
Qed.

Lemma scan_row_diagonal (i : nat) (c : ascii) (j2len : gmap nat nat) :
  a !! i = Some c → popular a c = false →
  row_diagonal i j2len →
  ∀ js newj2len best,
    StronglySorted lt js →
    (∀ j, j ∈ js → a !! j = Some c) →
    (∀ j k, newj2len !! j = Some k → 1 ≤ k ∧ k ≤ run_len i ∧ k ≤ run_len j) →
    best_diagonal i best →
    (i ∈ js
     ∨ (newj2len !! i = Some (run_len i) ∧ run_len i ≤ size best ∧ Forall (lt i) js)) →
    row_diagonal (S i) (fst (scan_row 0 (length a) i js j2len newj2len best))
    ∧ best_diagonal (S i) (snd (scan_row 0 (length a) i js j2len newj2len best)).
Proof.
  intros Hc Hpop Hrow.
  assert (kept i = true) as Hi by (unfold kept; by rewrite Hc, Hpop).
  induction js as [|j js IH]; intros new best Hsorted Hjs Hnew Hbest Hstate.
  - destruct Hstate as [Hin|(Hlook & Hlen & _)]; [by apply elem_of_nil in Hin|].
    simpl. split; [split|].
    + intros j k Hj. apply Hnew in Hj. simpl. lia.
    + simpl. by rewrite Hlook.
    + destruct Hbest as (d & s & -> & Hs). exists d, s. split; [done|].
      intros j Hj. destruct (decide (j = i)) as [->|]; [done|]. apply Hs. lia.
  - apply StronglySorted_inv in Hsorted as [Hsorted Hrest].
    assert (a !! j = Some c) as Hj by (apply Hjs; by left).
    assert (kept j = true) as Hkj by (unfold kept; by rewrite Hj, Hpop).
    assert (j < length a) as Hlt by (by eapply lookup_lt_Some).
    cbn [scan_row]. replace (j <? 0) with false by done.
    replace (length a <=? j) with false by (symmetry; apply Nat.leb_gt; lia).
    destruct (j2lenget_diagonal i j2len j Hrow) as [Hk1 Hk2].
    pose proof (run_len_kept i Hi) as Hri. pose proof (run_len_kept j Hkj) as Hrj.
    destruct Hbest as (d & s & -> & Hs). unfold size; cbn [snd].
    assert (∀ j0 k0, <[j:=j2lenget j2len j + 1]> new !! j0 = Some k0 →
                     1 ≤ k0 ∧ k0 ≤ run_len i ∧ k0 ≤ run_len j0) as Hnew'.
    { intros j0 k0. rewrite lookup_insert. case_decide; [|by apply Hnew].
      intros [= <-]. subst j0. lia. }
    destruct (lt_eq_lt_dec j i) as [[Hji| ->]|Hji].
    + destruct Hstate as [Hin|(_ & _ & Hall)];
        [|apply Forall_cons in Hall as [? _]; lia].
      apply elem_of_cons in Hin as [->|Hin]; [lia|].
      replace (s <? j2lenget j2len j + 1) with false
        by (symmetry; apply Nat.ltb_ge; specialize (Hs j Hji); lia).
      apply IH; try done.
      * intros j0 Hj0. apply Hjs. by right.
      * by exists d, s.
      * by left.
    + pose proof (proj2 Hrow) as Hdiag.
      rewrite Hdiag, Nat.add_1_r, <- Hri in Hnew'.
      rewrite Hdiag, Nat.add_1_r, <- Hri.
      destruct (s <? run_len i) eqn:Hs'.
      * apply Nat.ltb_lt in Hs'. apply IH; try done.
        -- intros j0 Hj0. apply Hjs. by right.
        -- eexists _, _. split; [reflexivity|]. intros j0 Hj0. specialize (Hs j0 Hj0). lia.
        -- right. rewrite lookup_insert_eq. unfold size; simpl. done.
      * apply Nat.ltb_ge in Hs'. apply IH; try done.
        -- intros j0 Hj0. apply Hjs. by right.
        -- by exists d, s.
        -- right. rewrite lookup_insert_eq. unfold size; simpl. done.
    + destruct Hstate as [Hin|(Hlook & Hlen & Hall)].
      { apply elem_of_cons in Hin as [->|Hin]; [lia|].
        rewrite Forall_forall in Hrest. specialize (Hrest i Hin). lia. }
      unfold size in Hlen; simpl in Hlen.
      replace (s <? j2lenget j2len j + 1) with false
        by (symmetry; apply Nat.ltb_ge; lia).
      apply IH; try done.
      * intros j0 Hj0. apply Hjs. by right.
      * by exists d, s.
      * right. rewrite lookup_insert_ne by lia.
        apply Forall_cons in Hall as [_ Hall]. done.
Qed.

End diagonal.

Section self_match.
Variable a : list ascii.

Lemma row_diagonal_step (st : gmap nat nat * Match) (i : nat) :
  i < length a →
  row_diagonal a i (fst st) → best_diagonal a i (snd st) →
  row_diagonal a (S i) (fst (row a a 0 (length a) st i))
  ∧ best_diagonal a (S i) (snd (row a a 0 (length a) st i)).
Proof.
  intros Hi Hrow Hbest. unfold row.
  destruct (a !! i) as [c|] eqn:Hc; [|by apply lookup_ge_None in Hc; lia].
  unfold b2j. destruct (popular a c) eqn:Hpop.
  - assert (run_len a i = 0) as Hrun.
    { apply run_len_dropped. unfold kept. by rewrite Hc, Hpop. }
    simpl. split; [split|].
    + intros j k Hj. by rewrite lookup_empty in Hj.
    + simpl. by rewrite lookup_empty.
    + destruct Hbest as (d & s & -> & Hs). exists d, s. split; [done|].
      intros j Hj. destruct (decide (j = i)) as [->|]; [lia|]. apply Hs. lia.
  - apply (scan_row_diagonal a i c); [done | done | done | | | | done |].
    + apply indices_from_sorted.
    + intros j Hj. apply elem_of_indices_from in Hj as [_ Hj].
      by rewrite Nat.sub_0_r in Hj.
    + intros j k Hj. by rewrite lookup_empty in Hj.
    + left. apply elem_of_indices_from. split; [lia|]. by rewrite Nat.sub_0_r.
Qed.

Lemma rows_diagonal_from : ∀ n i st,
  i + n ≤ length a →
  row_diagonal a i (fst st) → best_diagonal a i (snd st) →
  best_diagonal a (i + n) (snd (foldl (row a a 0 (length a)) st (seq i n))).
Proof.
  induction n as [|n IH]; intros i st Hn Hrow Hbest; simpl.
  - by rewrite Nat.add_0_r.
  - destruct (row_diagonal_step st i) as [Hrow' Hbest']; [lia|done|done|].
    rewrite <- Nat.add_succ_comm. apply IH; [lia|done|done].
Qed.

Lemma rows_diagonal :
  ∃ d s, snd (rows a a 0 (length a) 0 (length a)) = (d, d, s) ∧ d + s ≤ length a.
Proof.
  pose proof (rows_inside a a 0 (length a) 0 (length a)) as Hin.
  destruct (rows_diagonal_from (length a) 0 (∅, (0, 0, 0))) as (d & s & Heq & _).
  - lia.
  - split; [|done]. intros j k Hj. simpl in Hj. by rewrite lookup_empty in Hj.
  - exists 0, 0. split; [done|]. intros j Hj. lia.
  - unfold rows. rewrite Nat.sub_0_r. simpl in Heq. rewrite Heq in *.
    exists d, s. split; [done|]. unfold rows in Hin.
    rewrite Nat.sub_0_r, Heq in Hin. simpl in Hin. lia.
Qed.

Lemma same_self (i : nat) : i < length a → same (a !! i) (a !! i) = true.
Proof.
  intros Hi. destruct (lookup_lt_is_Some_2 a i Hi) as [c ->]. simpl.
  apply Ascii.eqb_refl.
Qed.

Lemma extend_left_self : ∀ fuel d s,
  d ≤ fuel → d + s ≤ length a →
  extend_left a a 0 0 false fuel (d, d, s) = (0, 0, d + s).
Proof.
  induction fuel as [|fuel IH]; intros d s Hd Hs; simpl.
  - by replace d with 0 by lia.
  - destruct d as [|d]; simpl; [done|].
    rewrite Nat.sub_0_r, same_self by lia. simpl.
    rewrite IH by lia. f_equal. lia.
Qed.

Lemma extend_right_self : ∀ fuel s,
  s ≤ length a → length a - s ≤ fuel →
  extend_right a a (length a) (length a) false fuel (0, 0, s) = (0, 0, length a).
Proof.
  induction fuel as [|fuel IH]; intros s Hs Hfuel; simpl.
  - f_equal. lia.
  - destruct (s <? length a) eqn:Hlt; simpl.
    + apply Nat.ltb_lt in Hlt. rewrite same_self by lia. simpl.
      apply IH; lia.
    + apply Nat.ltb_ge in Hlt. f_equal. lia.
Qed.

Lemma extend_left_stop (junk : bool) (fuel j k : nat) :
  extend_left a a 0 0 junk fuel (0, j, k) = (0, j, k).
Proof. by destruct fuel. Qed.

Lemma extend_right_stop (junk : bool) (fuel : nat) :
  extend_right a a (length a) (length a) junk fuel (0, 0, length a) = (0, 0, length a).
Proof. destruct fuel; simpl; [done|]. by rewrite Nat.ltb_irrefl. Qed.

(** Matching a sequence against itself, the longest match is all of it. *)
Lemma find_longest_match_self :
  find_longest_match a a 0 (length a) 0 (length a) = (0, 0, length a).
Proof.
  unfold find_longest_match.
  destruct rows_diagonal as (d & s & -> & Hds).
  rewrite extend_left_self by lia.
  rewrite extend_right_self by lia.
  by rewrite extend_left_stop, extend_right_stop.
Qed.

Lemma found_blocks_self : a ≠ [] → found_blocks a a = [(0, 0, length a)].
Proof.
  intros Ha. unfold found_blocks, enough.
  replace (2 * length a + 1) with (S (2 * length a)) by lia.
  cbn [blocks_loop]. rewrite find_longest_match_self.
  assert (length a ≠ 0) as Hn by (by destruct a).
  apply Nat.eqb_neq in Hn. rewrite Hn. simpl.
  rewrite Nat.ltb_irrefl. simpl. by destruct (length a + (length a + 0)).
Qed.

Lemma ratio_self : a ≠ [] → (ratio a a == 1)%Q.
Proof.
  intros Ha. unfold ratio.
  rewrite matching_blocks_total, found_blocks_self by done.
  unfold total, size; simpl. rewrite Nat.add_0_r.
  apply calculate_ratio_all. by destruct a.
Qed.

End self_match.

Lemma truthy_chars (s : string) :
  Py.truthy s = true → String.list_ascii_of_string s ≠ [].
Proof. by destruct s. Qed.

(** C8. For all strings [a] and [b] the similarity lies between 0 and 1;
    the similarity of a string with itself is 1; the similarity of two
    empty strings is 1; the similarity of a non-empty string and the empty
    string is 0, in either order. The loop of the matcher that computes the
    ratio ends within the turns the model gives it. *)
Theorem similarity_bounds :
  (∀ a b : string, (0 <= compute_similarity a b <= 1)%Q)
  ∧ (∀ a : string, (compute_similarity a a == 1)%Q)
  ∧ compute_similarity "" "" = 1%Q
  ∧ (∀ x : string, x ≠ "" →
       compute_similarity x "" = 0%Q ∧ compute_similarity "" x = 0%Q)
  ∧ (∀ a b : list ascii,
       snd (blocks_loop a b (enough a) [(0, length a, 0, length b)] []) = []).
Proof.
  split; [|split; [|split; [|split]]].
  - intros a b. unfold compute_similarity.
    destruct (Py.truthy a), (Py.truthy b); simpl; try lra.
    apply ratio_bounds.
  - intros a. unfold compute_similarity.
    destruct (Py.truthy a) eqn:Ha; simpl; [|lra].
    by apply ratio_self, truthy_chars.
  - reflexivity.
  - intros x Hx. destruct x; [done|]. by split.
  - apply found_blocks_done.
Qed.

(** * Further properties of the segmenter *)

(** ** Lines and joins *)

Lemma split_nonempty (sep : ascii) (s : string) : Py.split sep s ≠ [].
Proof. induction s as [|c s IH]; simpl; [done|]. by destruct (Ascii.eqb c sep), (Py.split sep s). Qed.

Lemma join_cons (sep x : string) (l : list string) :
  l ≠ [] → Py.join sep (x :: l) = x +:+ sep +:+ Py.join sep l.
Proof. by destruct l. Qed.

Lemma string_app_cons (c : ascii) (x y : string) :
  String c x +:+ y = String c (x +:+ y).
Proof. reflexivity. Qed.

Lemma string_app_assoc (x y z : string) : (x +:+ y) +:+ z = x +:+ (y +:+ z).
Proof.
  induction x as [|c x IH]; [done|]. by rewrite !string_app_cons, IH.
Qed.

Lemma join_app (sep : string) (l1 l2 : list string) :
  l1 ≠ [] → l2 ≠ [] →
  Py.join sep (l1 ++ l2) = Py.join sep l1 +:+ sep +:+ Py.join sep l2.
Proof.
  induction l1 as [|x l1 IH]; intros H1 H2; [done|].
  destruct l1 as [|y l1].
  - simpl app. by rewrite join_cons.
  - rewrite <- app_comm_cons, join_cons by done.
    rewrite IH by done. rewrite (join_cons sep x (y :: l1)) by done.
    by rewrite !string_app_assoc.
Qed.

(** Joining the joined pieces is joining their lines. *)
Lemma join_joined (sep : string) (chunk : list string) : ∀ before after,
  chunk ≠ [] →
  Py.join sep (before ++ Py.join sep chunk :: after)
  = Py.join sep (before ++ chunk ++ after).
Proof.
  intros before after Hc.
  destruct before as [|b before], after as [|x after].
  - simpl. by rewrite app_nil_r.
  - simpl app. rewrite join_cons by done.
    by rewrite (join_app sep chunk (x :: after)).
  - rewrite app_nil_r.
    rewrite (join_app sep (b :: before) [Py.join sep chunk]) by done.
    by rewrite (join_app sep (b :: before) chunk).
  - rewrite (join_app sep (b :: before) (_ :: _)) by done.
    rewrite (join_app sep (b :: before) (chunk ++ _)) by (by destruct chunk).
    rewrite (join_cons sep (Py.join sep chunk)) by done.
    by rewrite (join_app sep chunk (x :: after)).
Qed.

(** Splitting at line breaks and joining with line breaks gives the text
    back. *)
Lemma split_join (s : string) : Py.join nl_str (Py.split Py.nl s) = s.
Proof.
  induction s as [|c s IH]; [done|]. simpl.
  pose proof (split_nonempty Py.nl s) as Hne.
  destruct (Ascii.eqb_spec c Py.nl) as [->|Hc].
  - rewrite join_cons by done. by rewrite IH.
  - destruct (Py.split Py.nl s) as [|w ws]; [done|].
    destruct ws as [|w' ws]; simpl in *; by rewrite <- IH.
Qed.

(** ** The line ranges of the elements *)

(** A blank line, as the segmenter tests it. *)
Definition blank (line : string) : Prop := Py.strip line = "".

(** The lines [i] to [j], both included. *)
Definition slice (lines : list string) (i j : nat) : list string :=
  take (S j - i) (drop i lines).

(** The elements cover the lines from [k] up to, not including, [n],
    one after the other with no gap and no overlap. *)
Fixpoint tiles (k : nat) (els : list PromptElement) (n : nat) : Prop :=
  match els with
  | [] => k = n
  | e :: rest => line_start e = k ∧ line_start e ≤ line_end e ∧ tiles (S (line_end e)) rest n
  end.

Lemma tiles_le (els : list PromptElement) : ∀ k n, tiles k els n → k ≤ n.
Proof.
  induction els as [|e els IH]; intros k n H; simpl in H; [lia|].
  destruct H as (Hs & Hle & H). apply IH in H. lia.
Qed.

Lemma tiles_snoc (els : list PromptElement) (e : PromptElement) : ∀ k,
  tiles k els (line_start e) → line_start e ≤ line_end e →
  tiles k (els ++ [e]) (S (line_end e)).
Proof.
  induction els as [|x els IH]; intros k H Hle; simpl in *.
  - by subst.
  - destruct H as (Hs & Hx & H). repeat split; [done..|]. by apply IH.
Qed.

Lemma tiles_within (els : list PromptElement) : ∀ k n,
  tiles k els n → Forall (fun e => k ≤ line_start e ∧ line_end e < n) els.
Proof.
  induction els as [|e els IH]; intros k n H; simpl in H; [constructor|].
  destruct H as (Hs & Hle & H).
  pose proof (tiles_le _ _ _ H). constructor; [lia|].
  eapply Forall_impl; [by apply IH|]. simpl. intros x ?. lia.
Qed.

Lemma tiles_annotate (els : list PromptElement) : ∀ k n,
  tiles k els n → tiles k (map annotate els) n.
Proof.
  induction els as [|e els IH]; intros k n H; simpl in *; [done|].
  destruct (annotate_fields e) as (_ & _ & -> & -> & _).
  destruct H as (? & ? & ?). auto.
Qed.

Lemma slice_app (lines : list string) (line : string) (i j : nat) :
  j < length lines → slice (lines ++ [line]) i j = slice lines i j.
Proof.
  intros Hj. unfold slice.
  destruct (decide (i ≤ length lines)) as [Hi|Hi].
  - rewrite drop_app_le by done. rewrite take_app_le; [done|].
    rewrite length_drop. lia.
  - replace (S j - i) with 0 by lia. done.
Qed.

(** What the elements built so far say about the lines [pre] read so far:
    they tile the lines from the first line that is not blank, and the
    [raw] of each is its lines joined by line breaks. *)
Definition covers (pre : list string) (els : list PromptElement) (m : nat) : Prop :=
  ∃ lead,
    tiles lead els m
    ∧ Forall blank (take lead pre)
    ∧ (lead < length pre → ∃ l, pre !! lead = Some l ∧ ¬ blank l)
    ∧ Forall (fun e => raw e = Py.join nl_str (slice pre (line_start e) (line_end e))) els.

(** The state of the loop after the lines [pre]: the elements cover the
    lines before the open run, and the open run holds the lines after
    them. *)
Definition segmented (pre : list string) (st : pstate) : Prop :=
  ∃ m,
    covers pre (elements st) m
    ∧ match current_element_lines st with
      | [] => m = length pre ∧ current_element_type st = None ∧ in_code_block st = false
      | _ :: _ =>
          element_start_line st = m ∧ m < length pre
          ∧ current_element_lines st = drop m pre
          ∧ is_Some (current_element_type st)
      end.

Lemma covers_more (pre : list string) (line : string) (els : list PromptElement) (m : nat) :
  covers pre els m → m ≤ length pre →
  (els = [] → m = length pre → ¬ blank line) →
  covers (pre ++ [line]) els m.
Proof.
  intros (lead & Ht & Hb & Hnb & Hraw) Hm Hline.
  pose proof (tiles_le _ _ _ Ht) as Hlead.
  exists lead. repeat split; [done| | |].
  - rewrite take_app_le by lia. done.
  - intros _. destruct (decide (lead < length pre)) as [Hlt|Hge].
    + destruct (Hnb Hlt) as (l & Hl & Hnl). exists l. split; [|done].
      by rewrite lookup_app_l.
    + assert (lead = length pre) as -> by lia.
      exists line. split.
      * rewrite lookup_app_r by lia. by rewrite Nat.sub_diag.
      * apply Hline; [|lia]. destruct els as [|e els]; [done|].
        simpl in Ht. destruct Ht as (? & ? & Ht). apply tiles_le in Ht. lia.
  - pose proof (tiles_within _ _ _ Ht) as Hin.
    rewrite Forall_forall in *. intros e He.
    rewrite slice_app; [by apply Hraw|]. specialize (Hin e He). simpl in Hin. lia.
Qed.

Lemma covers_snoc (pre : list string) (els : list PromptElement) (e : PromptElement) (m : nat) :
  covers pre els m →
  line_start e = m → m ≤ line_end e →
  raw e = Py.join nl_str (slice pre m (line_end e)) →
  (els = [] → m < length pre) →
  covers pre (els ++ [e]) (S (line_end e)).
Proof.
  intros (lead & Ht & Hb & Hnb & Hraw) Hs Hle He Hfirst.
  exists lead. repeat split; [|done|done|].
  - apply tiles_snoc; [by rewrite Hs | lia].
  - apply Forall_app. split; [done|]. apply Forall_singleton. by rewrite Hs.
Qed.

Lemma covers_emit (pre : list string) (line : string) (els : list PromptElement)
    (e : PromptElement) :
  covers pre els (length pre) →
  (els = [] → ¬ blank line) →
  line_start e = length pre → line_end e = length pre → raw e = line →
  covers (pre ++ [line]) (els ++ [e]) (length (pre ++ [line])).
Proof.
  intros Hc Hline Hs He Hraw.
  rewrite length_app. simpl. rewrite Nat.add_1_r, <- He.
  apply (covers_snoc _ _ _ (length pre)); try lia.
  - apply covers_more; [done|lia|auto].
  - rewrite Hraw, He. unfold slice.
    replace (S (length pre) - length pre) with 1 by lia.
    by rewrite drop_app_length.
  - intros _. rewrite length_app. simpl. lia.
Qed.

Lemma covers_skip (pre : list string) (line : string) :
  covers pre [] (length pre) → blank line →
  covers (pre ++ [line]) [] (length (pre ++ [line])).
Proof.
  intros (lead & Ht & Hb & _ & _) Hline. simpl in Ht. subst lead.
  rewrite firstn_all in Hb.
  exists (length (pre ++ [line])). repeat split; [|lia|done].
  rewrite firstn_all. apply Forall_app. split; [done|]. by apply Forall_singleton.
Qed.

(** [flush_element] closes the open run: after it the elements cover all
    the lines read. *)
Lemma segmented_flush (syntax : string) (pre : list string) (st : pstate) :
  segmented pre st →
  covers pre (elements (flush_element syntax st)) (length pre)
  ∧ current_element_lines (flush_element syntax st) = []
  ∧ current_element_type (flush_element syntax st) = None
  ∧ in_code_block (flush_element syntax st) = in_code_block st
  ∧ in_example (flush_element syntax st) = in_example st.
Proof.
  intros (m & Hc & Hrun). unfold flush_element.
  destruct (current_element_lines st) as [|l ls] eqn:Hl.
  - destruct Hrun as (-> & Ht & _). by rewrite Hl.
  - destruct Hrun as (Hs & Hm & Hd & _). simpl. repeat split; try done.
    assert (length (l :: ls) = length pre - m) as Hlen by (by rewrite Hd, length_drop).
    match goal with |- covers _ (_ ++ [?e]) _ => set (el := e) end.
    replace (length pre) with (S (line_end el)) by (simpl in *; lia).
    apply (covers_snoc _ _ _ m); simpl; try lia; try done.
    rewrite Hs. unfold slice.
    replace (S (m + S (length ls) - 1) - m) with (S (length ls)) by lia.
    rewrite take_ge; [by rewrite <- Hd|]. rewrite length_drop. simpl in Hlen. lia.
Qed.

Lemma segmented_push (pre : list string) (line : string) (st : pstate) (ie icb : bool) :
  segmented pre st → current_element_lines st ≠ [] →
  segmented (pre ++ [line])
    (mkState (elements st) ie icb (current_element_lines st ++ [line])
             (current_element_type st) (element_start_line st)).
Proof.
  intros (m & Hc & Hrun) Hne.
  destruct (current_element_lines st) as [|l ls] eqn:Hl; [done|].
  destruct Hrun as (Hs & Hm & Hd & Ht).
  exists m. split; simpl.
  - apply covers_more; [done|lia|lia].
  - rewrite length_app. simpl. repeat split; [done|lia| |done].
    rewrite drop_app_le by lia. by rewrite <- Hd.
Qed.

Lemma segmented_open (pre : list string) (line : string) (els : list PromptElement)
    (t : PromptType) (ie icb : bool) :
  covers pre els (length pre) → ¬ blank line →
  segmented (pre ++ [line]) (mkState els ie icb [line] (Some t) (length pre)).
Proof.
  intros Hc Hline. exists (length pre). split; simpl.
  - apply covers_more; auto.
  - rewrite length_app, drop_app_length. simpl. repeat split; [lia|eauto].
Qed.

Lemma not_blank_truthy (line : string) : ¬ blank line → Py.truthy (Py.strip line) = true.
Proof. unfold blank. by destruct (Py.strip line). Qed.

Lemma segmented_run_kind (pre : list string) (st : pstate) :
  segmented pre st →
  (current_element_lines st = [] ↔ current_element_type st = None)
  ∧ (in_code_block st = true → current_element_lines st ≠ []).
Proof.
  intros (m & _ & Hrun). destruct (current_element_lines st).
  - destruct Hrun as (_ & -> & ->). done.
  - destruct Hrun as (_ & _ & _ & [t ->]). done.
Qed.

(** One turn of the loop keeps the state segmented. *)
Lemma step_segmented (syntax : string) (pre : list string) (line : string) (st : pstate) :
  segmented pre st →
  segmented (pre ++ [line]) (step syntax (length pre) line st).
Proof.
  intros Hst.
  destruct (segmented_run_kind pre st Hst) as [Hkind Hcode].
  destruct (segmented_flush syntax pre st Hst) as (Hfc & Hfl & Hft & Hfb & Hfe).
  destruct (decide (blank line)) as [Hb|Hnb].
  - rewrite step_blank by done.
    destruct (in_code_block st) eqn:Hicb.
    { by apply segmented_push, Hcode. }
    destruct (current_element_lines st) as [|l ls] eqn:Hl.
    + assert (current_element_type st = None) as Ht by (by apply Hkind).
      destruct Hst as (m & Hc & Hrun). rewrite Hl in Hrun. destruct Hrun as (-> & _ & _).
      destruct (elements st) as [|e es] eqn:He.
      * exists (length (pre ++ [line])). split; simpl; rewrite ?He, ?Hl, ?Ht, ?Hicb; [|done].
        by apply covers_skip.
      * exists (length (pre ++ [line])). split; simpl; rewrite ?He, ?Hl, ?Ht, ?Hicb; [|done].
        by apply covers_emit.
    + unfold set_in_example, push_line; simpl.
      apply segmented_push; [done|]. by rewrite Hl.
  - pose proof (not_blank_truthy line Hnb) as Htruthy.
    destruct (fence_line line) eqn:Hfence.
    { destruct (in_code_block st) eqn:Hicb.
      - (* a closing fence *)
        unfold step. unfold fence_line in Hfence. rewrite Hfence. simpl.
        rewrite Hicb. simpl.
        pose proof (segmented_push pre line st (in_example st) false Hst (Hcode eq_refl)) as Hp.
        change (mkState _ _ _ _ _ _)
          with (push_line line (set_in_code_block false st)) in Hp.
        destruct (segmented_flush syntax _ _ Hp) as (Hc' & Hl' & Ht' & Hb' & _).
        eexists. split; [exact Hc'|]. by rewrite Hl', Ht', Hb'.
      - (* an opening fence *)
        rewrite step_fence_open by done. by apply segmented_open. }
    unfold step. unfold fence_line in Hfence. rewrite Hfence.
    destruct (in_code_block st) eqn:Hicb.
    { by apply segmented_push, Hcode. }
    destruct (is_role_marker (Py.strip line)) as [role_name|].
    { exists (length (pre ++ [line])). split; simpl; rewrite ?Hfl, ?Hft, ?Hfb; [|done].
      by apply covers_emit. }
    destruct (is_comment (Py.strip line)).
    { exists (length (pre ++ [line])). split; simpl; rewrite ?Hfl, ?Hft, ?Hfb; [|done].
      by apply covers_emit. }
    destruct (is_example_marker (Py.strip line)).
    { unfold push_line, open_run, set_in_example; simpl. rewrite Hfl. simpl.
      by apply segmented_open. }
    destruct (is_instruction_line (Py.strip line) && negb (in_example st)).
    { case_bool_decide as Hinstr.
      - unfold push_line, open_run; simpl. rewrite Hfl. simpl.
        by apply segmented_open.
      - apply segmented_push; [done|]. rewrite Hkind. congruence. }
    rewrite Htruthy. simpl.
    destruct (current_element_type st) as [t|] eqn:Ht.
    + apply segmented_push; [done|]. rewrite Hkind. congruence.
    + assert (current_element_lines st = []) as Hl by (by apply Hkind).
      unfold push_line, open_run; simpl. rewrite Hl. simpl.
      apply segmented_open; [|done].
      destruct Hst as (m & Hc & Hrun). rewrite Hl in Hrun. by destruct Hrun as (-> & _).
Qed.

Lemma reached_segmented (syntax : string) (pre : list string) :
  segmented pre (reached syntax pre).
Proof.
  induction pre as [|line pre IH] using rev_ind.
  - exists 0. split; [|done]. exists 0. repeat split; simpl; try done; try lia.
  - rewrite reached_snoc. by apply step_segmented.
Qed.

Lemma covers_annotate (pre : list string) (els : list PromptElement) (m : nat) :
  covers pre els m → covers pre (map annotate els) m.
Proof.
  intros (lead & Ht & Hb & Hnb & Hraw). exists lead. repeat split; try done.
  - by apply tiles_annotate.
  - apply Forall_fmap. eapply Forall_impl; [exact Hraw|]. intros e He. simpl.
    by destruct (annotate_fields e) as (_ & _ & -> & -> & ->).
Qed.

Lemma parse_prompt_covers (text : string) :
  covers (Py.split Py.nl text) (parse_prompt text) (length (Py.split Py.nl text)).
Proof.
  unfold parse_prompt. apply covers_annotate.
  by destruct (segmented_flush (detect_template_syntax text) _ _
                 (reached_segmented (detect_template_syntax text) (Py.split Py.nl text)))
    as (Hc & _).
Qed.

(** X1. The elements of a segmentation tile the lines of the text: after
    the leading blank lines the first element starts, every element ends
    at or after the line it starts at, every next element starts on the
    line after the one before it ends, and the last element ends on the
    last line. *)
Theorem segmentation_tiles_lines (text : string) :
  ∃ lead,
    tiles lead (parse_prompt text) (length (Py.split Py.nl text))
    ∧ Forall blank (take lead (Py.split Py.nl text))
    ∧ (lead < length (Py.split Py.nl text) →
       ∃ l, Py.split Py.nl text !! lead = Some l ∧ ¬ blank l).
Proof.
  destruct (parse_prompt_covers text) as (lead & Ht & Hb & Hnb & _).
  by exists lead.
Qed.

(** X2. The [raw] of every element of a segmentation is the lines of its
    range, joined by line breaks. *)
Theorem element_raw_is_its_lines (text : string) :
  Forall (fun e =>
            raw e = Py.join nl_str
                      (slice (Py.split Py.nl text) (line_start e) (line_end e)))
         (parse_prompt text).
Proof. by destruct (parse_prompt_covers text) as (lead & _ & _ & _ & Hraw). Qed.

Lemma join_tiles (lines : list string) (els : list PromptElement) : ∀ k n before,
  tiles k els n → n ≤ length lines →
  Forall (fun e => raw e = Py.join nl_str (slice lines (line_start e) (line_end e))) els →
  Py.join nl_str (before ++ map raw els)
  = Py.join nl_str (before ++ take (n - k) (drop k lines)).
Proof.
  induction els as [|e els IH]; intros k n before Ht Hn Hraw; simpl in Ht.
  - subst. by rewrite Nat.sub_diag.
  - destruct Ht as (Hs & Hle & Ht). apply Forall_cons in Hraw as [He Hraw].
    pose proof (tiles_le _ _ _ Ht) as Hend.
    simpl. rewrite He, Hs.
    assert (slice lines k (line_end e) ≠ []) as Hne.
    { intros Hnil. apply (f_equal length) in Hnil. unfold slice in Hnil.
      rewrite length_take, length_drop in Hnil. simpl in Hnil. lia. }
    rewrite join_joined by done. rewrite app_assoc.
    rewrite (IH (S (line_end e)) n) by done. rewrite <- app_assoc. do 2 f_equal.
    unfold slice.
    replace (drop (S (line_end e)) lines)
      with (drop (S (line_end e) - k) (drop k lines))
      by (rewrite drop_drop; f_equal; lia).
    rewrite take_take_drop. f_equal. lia.
Qed.

(** X3. Segmentation loses no text: the leading blank lines followed by
    the [raw] of the elements, joined by line breaks, are the text. *)
Theorem raw_round_trip (text : string) :
  ∃ lead,
    Forall blank (take lead (Py.split Py.nl text))
    ∧ Py.join nl_str (take lead (Py.split Py.nl text) ++ map raw (parse_prompt text))
      = text.
Proof.
  destruct (parse_prompt_covers text) as (lead & Ht & Hb & _ & Hraw).
  exists lead. split; [done|].
  rewrite (join_tiles (Py.split Py.nl text) _ lead (length (Py.split Py.nl text)))
    by done.
  rewrite (take_ge (drop lead _)) by (rewrite length_drop; lia).
  by rewrite take_drop, split_join.
Qed.

(** X4. The segmentation of a text is empty exactly when every line of the
    text is blank. *)
Theorem no_element_iff_blank (text : string) :
  parse_prompt text = [] ↔ Forall blank (Py.split Py.nl text).
Proof.
  destruct (parse_prompt_covers text) as (lead & Ht & Hb & Hnb & _).
  split.
  - intros Hnil. rewrite Hnil in Ht. simpl in Ht. subst lead.
    by rewrite firstn_all in Hb.
  - intros Hall.
    assert (lead = length (Py.split Py.nl text)) as ->.
    { pose proof (tiles_le _ _ _ Ht).
      destruct (decide (lead < length (Py.split Py.nl text))) as [Hlt|]; [|lia].
      destruct (Hnb Hlt) as (l & Hl & Hnl).
      rewrite Forall_forall in Hall. destruct Hnl. apply Hall.
      by eapply list_elem_of_lookup_2. }
    destruct (parse_prompt text) as [|e els]; [done|].
    simpl in Ht. destruct Ht as (? & ? & Ht). apply tiles_le in Ht. lia.
Qed.

(** ** The shape of the elements *)

(** What each kind of element looks like. *)
Definition shaped (e : PromptElement) : Prop :=
  match type e with
  | TEXT | INSTRUCTION | EXAMPLE => content e = raw e
  | ROLE =>
      line_start e = line_end e ∧ metadata e = {[ "role" := MStr (content e) ]}
      ∧ is_role_marker (Py.strip (raw e)) = Some (content e)
  | COMMENT =>
      line_start e = line_end e ∧ metadata e = ∅
      ∧ content e = Py.lstrip_by comment_chars (Py.strip (raw e))
  | WHITESPACE =>
      line_start e = line_end e ∧ metadata e = ∅ ∧ content e = "" ∧ blank (raw e)
  | VARIABLE => False
  end.

(** The first element, when there is one, is no Whitespace element. *)
Definition starts_visibly (els : list PromptElement) : Prop :=
  match els with
  | [] => True
  | e :: _ => type e ≠ WHITESPACE
  end.

Definition state_shaped (st : pstate) : Prop :=
  Forall shaped (elements st) ∧ starts_visibly (elements st)
  ∧ run_kind (current_element_type st).

Section shapes.
Variable syntax : string.

Lemma starts_visibly_app (els : list PromptElement) (e : PromptElement) :
  starts_visibly els → (els = [] → type e ≠ WHITESPACE) → starts_visibly (els ++ [e]).
Proof. destruct els; simpl; auto. Qed.

Lemma flush_shaped st : state_shaped st → state_shaped (flush_element syntax st).
Proof.
  intros (Hel & Hv & Hk). unfold flush_element.
  destruct (current_element_lines st) as [|l ls]; [done|].
  split; [|split]; simpl; [| |done].
  - apply Forall_app; split; [done|]. apply Forall_singleton.
    unfold shaped; simpl. by destruct (current_element_type st) as [[]|].
  - apply starts_visibly_app; [done|]. intros _. simpl.
    by destruct (current_element_type st) as [[]|].
Qed.

Lemma emit_shaped e st :
  shaped e → (elements st = [] → type e ≠ WHITESPACE) →
  state_shaped st → state_shaped (emit e st).
Proof.
  intros He Hw (Hel & Hv & Hk). split; [|split]; simpl; [| |done].
  - apply Forall_app; split; [done|]. by apply Forall_singleton.
  - by apply starts_visibly_app.
Qed.

Lemma push_shaped line st : state_shaped st → state_shaped (push_line line st).
Proof. by intros (? & ? & ?). Qed.

Lemma open_shaped i t st :
  run_kind (Some t) → state_shaped st → state_shaped (open_run i t st).
Proof. by intros ? (? & ? & ?). Qed.

Lemma example_flag_shaped b st : state_shaped st → state_shaped (set_in_example b st).
Proof. by intros (? & ? & ?). Qed.

Lemma code_flag_shaped b st : state_shaped st → state_shaped (set_in_code_block b st).
Proof. by intros (? & ? & ?). Qed.

Ltac shaped :=
  repeat first
    [ assumption
    | apply flush_shaped
    | apply push_shaped
    | apply example_flag_shaped
    | apply code_flag_shaped
    | apply open_shaped; [exact I|] ].

Lemma step_shaped i line st : state_shaped st → state_shaped (step syntax i line st).
Proof.
  intros H. unfold step.
  destruct (is_fence (Py.strip line)); [repeat case_match; shaped|].
  destruct (in_code_block st); [shaped|].
  destruct (is_role_marker (Py.strip line)) as [role_name|] eqn:Hrole.
  { apply emit_shaped; [|done|shaped]. unfold shaped; simpl. by rewrite Hrole. }
  destruct (is_comment (Py.strip line)).
  { apply emit_shaped; [|done|shaped]. by unfold shaped. }
  destruct (is_example_marker (Py.strip line)); [shaped|].
  destruct (is_instruction_line (Py.strip line) && negb (in_example st));
    [case_bool_decide; shaped|].
  destruct (negb (Py.truthy (Py.strip line))) eqn:Hblank.
  - apply example_flag_shaped.
    destruct (current_element_lines st); [|shaped].
    destruct (elements st) as [|e es] eqn:Hels; [shaped|].
    apply emit_shaped; [|by rewrite Hels|shaped].
    unfold shaped, blank; simpl. repeat split.
    by destruct (Py.strip line).
  - destruct (current_element_type st); shaped.
Qed.

Lemma run_shaped lines : ∀ i st, state_shaped st → state_shaped (run syntax i lines st).
Proof.
  induction lines as [|line lines IH]; intros i st H; simpl; [done|].
  by apply IH, step_shaped.
Qed.

End shapes.

Lemma annotate_shaped (e : PromptElement) : shaped e → shaped (annotate e).
Proof.
  unfold annotate, shaped.
  destruct (type e) eqn:Ht; simpl; try done;
    destruct (extract_variables (content e)); simpl; by rewrite ?Ht.
Qed.

(** X5. The shape of the elements of a segmentation. The content of a
    Text, Instruction or Example element is its raw text. A Role element
    is one line, its content is the role name [is_role_marker] reads off
    that line, stripped, and its metadata is that name under ['role'] and
    nothing else. A Comment element is one line, with no metadata, and its
    content is the stripped line without its leading [#], [/] and space
    characters. A Whitespace element is one blank line, with empty content
    and no metadata. No element is a Variable element, and the first
    element is never a Whitespace element. *)
Theorem element_shapes (text : string) :
  Forall (fun e =>
            match type e with
            | TEXT | INSTRUCTION | EXAMPLE => content e = raw e
            | ROLE =>
                line_start e = line_end e
                ∧ metadata e = {[ "role" := MStr (content e) ]}
                ∧ is_role_marker (Py.strip (raw e)) = Some (content e)
            | COMMENT =>
                line_start e = line_end e ∧ metadata e = ∅
                ∧ content e = Py.lstrip_by comment_chars (Py.strip (raw e))
            | WHITESPACE =>
                line_start e = line_end e ∧ metadata e = ∅
                ∧ content e = "" ∧ Py.strip (raw e) = ""
            | VARIABLE => False
            end)
         (parse_prompt text)
  ∧ match parse_prompt text with
    | [] => True
    | e :: _ => type e ≠ WHITESPACE
    end.
Proof.
  unfold parse_prompt.
  set (syntax := detect_template_syntax text).
  assert (state_shaped (flush_element syntax (run syntax 0 (Py.split Py.nl text) initial)))
    as (Hel & Hv & _).
  { apply flush_shaped, run_shaped. by repeat split. }
  split.
  - apply Forall_fmap. eapply Forall_impl; [exact Hel|].
    intros e He. by apply annotate_shaped.
  - destruct (elements _) as [|e els]; [done|]. simpl.
    by destruct (annotate_fields e) as (-> & _).
Qed.

(** * Further properties of the differ *)

(** ** A sequence aligned with itself *)

Definition paired (x : item) : pairing := (Some x, Some x).

Lemma find_exact_self (e : PromptElement) (i : nat) (used : gset nat) :
  ∀ done_ rest,
    Forall (fun p : item => fst p ∈ used) done_ → i ∉ used →
    find_exact e (done_ ++ (i, e) :: rest) used = Some (i, e).
Proof.
  induction done_ as [|[j x] done_ IH]; intros rest Hdone Hi; simpl.
  - rewrite decide_False by done. by rewrite !bool_decide_eq_true_2.
  - apply Forall_cons in Hdone as [Hj Hdone]. simpl in Hj.
    rewrite decide_True by done. by apply IH.
Qed.

Lemma exact_pass_self (all : list item) : ∀ rest done_ st,
  all = done_ ++ rest → NoDup all.*1 →
  aligned st = map paired done_ →
  Forall (fun p : item => fst p ∈ old_used st ∧ fst p ∈ new_used st) done_ →
  Forall (fun p : item => fst p ∉ old_used st) rest →
  aligned (foldl (exact_step all) st rest) = map paired all
  ∧ Forall (fun p : item => fst p ∈ old_used (foldl (exact_step all) st rest)
                         ∧ fst p ∈ new_used (foldl (exact_step all) st rest)) all.
Proof.
  induction rest as [|[i e] rest IH]; intros done_ st Hall Hnd Hal Hdone Hrest; simpl.
  - rewrite app_nil_r in Hall. by subst.
  - apply Forall_cons in Hrest as [Hi Hrest]. simpl in Hi.
    assert (exact_step all st (i, e) = matched (i, e) (i, e) st) as ->.
    { unfold exact_step. simpl. rewrite Hall.
      rewrite find_exact_self; [done| |done].
      eapply Forall_impl; [exact Hdone|]. by intros p [? _]. }
    apply (IH (done_ ++ [(i, e)])).
    + by rewrite <- app_assoc.
    + done.
    + simpl. by rewrite Hal, map_app.
    + apply Forall_app. split.
      * eapply Forall_impl; [exact Hdone|]. intros p [??]. simpl. set_solver.
      * apply Forall_singleton. simpl. set_solver.
    + rewrite Hall, fmap_app in Hnd. apply NoDup_app in Hnd as (_ & _ & Hnd).
      simpl in Hnd. apply NoDup_cons in Hnd as [Hfresh _].
      rewrite Forall_forall in *. intros p Hp. simpl.
      assert (fst p ≠ i).
      { intros <-. apply Hfresh. by apply list_elem_of_fmap_2. }
      specialize (Hrest p Hp). set_solver.
Qed.

Lemma similar_pass_skip (old_filtered : list item) : ∀ l st,
  Forall (fun p : item => fst p ∈ new_used st) l →
  foldl (similar_step old_filtered) st l = st.
Proof.
  induction l as [|x l IH]; intros st Hl; simpl; [done|].
  apply Forall_cons in Hl as [Hx Hl].
  unfold similar_step at 2. rewrite decide_True by done. by apply IH.
Qed.

(** Aligning a sequence with itself pairs every element that is not
    Whitespace with itself, in order, and leaves nothing unmatched. *)
Lemma align_indexed_self (els : list PromptElement) :
  align_indexed els els = map paired (filtered els).
Proof.
  unfold align_indexed.
  destruct (exact_pass_self (filtered els) (filtered els) [] (mkAlign [] ∅ ∅))
    as [Hal Hused]; [done|apply filtered_distinct|done|done| |].
  { apply Forall_forall. set_solver. }
  rewrite similar_pass_skip
    by (eapply Forall_impl; [exact Hused|]; by intros p [_ ?]).
  rewrite Hal. unfold remaining.
  rewrite !filter_none; [by rewrite app_nil_r | |];
    rewrite Forall_forall in Hused; intros p Hp Hn; by destruct (Hused p Hp).
Qed.

Lemma filtered_elements (els : list PromptElement) :
  map snd (filtered els) = filter (fun e => type e ≠ WHITESPACE) els.
Proof.
  unfold filtered.
  assert (∀ k, map snd (filter (fun p : item => type (snd p) ≠ WHITESPACE)
                               (imap (fun i e => (k + i, e)) els))
               = filter (fun e => type e ≠ WHITESPACE) els) as H.
  { induction els as [|e els IH]; intros k; [done|].
    rewrite imap_cons, !filter_cons. cbn [snd].
    rewrite (imap_ext _ (fun i x => (S k + i, x))) by (intros; simpl; f_equal; lia).
    destruct (decide (type e ≠ WHITESPACE)); [rewrite fmap_cons|];
      cbn [snd]; by rewrite <- (IH (S k)). }
  apply (H 0).
Qed.

(** The diff of an element with itself. *)
Definition unchanged (e : PromptElement) : ElementDiff :=
  mkDiff UNCHANGED (type e) (Some (content e)) (Some (content e))
         (Some (line_start e)) (Some (line_start e)) ∅.

Lemma compute_similarity_self (s : string) : (compute_similarity s s == 1)%Q.
Proof.
  unfold compute_similarity. destruct (Py.truthy s) eqn:Hs; simpl; [|lra].
  by apply ratio_self, truthy_chars.
Qed.

(** X6. Comparing a text with itself: one Unchanged diff for each element
    that is not Whitespace, in order, no change, no added and no removed
    variable, and similarity 1. *)
Theorem compare_with_itself (text old_label new_label : string) :
  ∃ r,
    diff_prompts text text old_label new_label = Some r
    ∧ element_diffs r
      = map unchanged (filter (fun e => type e ≠ WHITESPACE) (parse_prompt text))
    ∧ has_changes r = false
    ∧ added_variables r = ∅ ∧ removed_variables r = ∅
    ∧ (similarity r == 1)%Q.
Proof.
  unfold diff_prompts, align_elements. rewrite align_indexed_self.
  assert (mapM element_diff (map forget (map paired (filtered (parse_prompt text))))
          = Some (map unchanged
                    (filter (fun e => type e ≠ WHITESPACE) (parse_prompt text)))) as ->.
  { rewrite <- filtered_elements. apply mapM_Some.
    induction (filtered (parse_prompt text)) as [|[i e] l IH]; simpl; constructor; [|done].
    unfold forget, paired, unchanged; simpl. by rewrite bool_decide_eq_true_2. }
  simpl. eexists. split; [reflexivity|]. simpl. repeat split.
  - unfold has_changes; simpl.
    by induction (filter _ (parse_prompt text)) as [|e l IH].
  - set_solver.
  - set_solver.
  - apply compute_similarity_self.
Qed.

(** ** What a matched pair is *)

(** A pair built by one of the two passes: both sides, of the same type,
    with the same content or a similarity above the threshold. *)
Definition pair_sound (p : pairing) : Prop :=
  match p with
  | (Some old, Some new) =>
      type (snd old) = type (snd new)
      ∧ (content (snd old) = content (snd new)
         ∨ (threshold < compute_similarity (content (snd old)) (content (snd new)))%Q)
  | _ => False
  end.

Lemma find_exact_equal (new_elem : PromptElement) (used : gset nat) : ∀ l old,
  find_exact new_elem l used = Some old →
  type (snd old) = type new_elem ∧ content (snd old) = content new_elem.
Proof.
  induction l as [|[i e] l IH]; intros old H; simpl in H; [done|].
  destruct (decide (i ∈ used)); [by apply IH|].
  destruct (bool_decide (type e = type new_elem)) eqn:Ht;
    destruct (bool_decide (content e = content new_elem)) eqn:Hc;
    simpl in H; try by apply IH.
  apply bool_decide_eq_true_1 in Ht, Hc. by simplify_eq.
Qed.

Lemma best_of_above (new_elem : PromptElement) : ∀ cands best_match best_score best final,
  best_of new_elem cands best_match best_score = (Some best, final) →
  (best_match = Some best ∧ final = best_score)
  ∨ (best ∈ cands ∧ (best_score < score new_elem best)%Q).
Proof.
  induction cands as [|p cands IH]; intros bm bs best final H; simpl in H.
  - left. by simplify_eq.
  - destruct (Qlt_le_dec bs (score new_elem p)) as [Hlt|Hle].
    + apply IH in H as [[? ?]|[? ?]]; right.
      * simplify_eq. split; [by left|done].
      * split; [by right|lra].
    + apply IH in H as [[? ?]|[? ?]]; [by left|right]. split; [by right|done].
Qed.

Lemma exact_step_sound (old_filtered : list item) (st : astate) (new : item) :
  Forall pair_sound (aligned st) →
  Forall pair_sound (aligned (exact_step old_filtered st new)).
Proof.
  intros H. unfold exact_step.
  destruct (find_exact _ _ _) as [old|] eqn:Hfind; [|done].
  apply find_exact_equal in Hfind as [Ht Hc]. simpl.
  apply Forall_app. split; [done|]. apply Forall_singleton. simpl. auto.
Qed.

Lemma similar_step_sound (old_filtered : list item) (st : astate) (new : item) :
  Forall pair_sound (aligned st) →
  Forall pair_sound (aligned (similar_step old_filtered st new)).
Proof.
  intros H. unfold similar_step. case_decide; [done|].
  rewrite scan_similar_candidates.
  destruct (best_of _ _ _ _) as [[old|] final] eqn:Hbest; [|done]. simpl.
  apply best_of_above in Hbest as [[? _]|[Hin Hlt]]; [done|].
  apply Forall_app. split; [done|]. apply Forall_singleton. simpl.
  unfold candidates in Hin. apply list_elem_of_filter in Hin as [[_ Ht] _].
  split; [done|]. by right.
Qed.

Lemma foldl_sound (f : astate → item → astate) (l : list item) : ∀ st,
  (∀ st x, Forall pair_sound (aligned st) → Forall pair_sound (aligned (f st x))) →
  Forall pair_sound (aligned st) →
  Forall pair_sound (aligned (foldl f st l)).
Proof. induction l as [|x l IH]; intros st Hf Hst; simpl; auto. Qed.

Lemma passes_sound (old_filtered new_filtered : list item) :
  Forall pair_sound (aligned (passes old_filtered new_filtered)).
Proof.
  unfold passes.
  apply foldl_sound; [apply similar_step_sound|].
  apply foldl_sound; [apply exact_step_sound|]. constructor.
Qed.

Lemma compute_similarity_le_1 (a b : string) : (compute_similarity a b <= 1)%Q.
Proof.
  unfold compute_similarity.
  destruct (Py.truthy a), (Py.truthy b); simpl; try lra.
  apply ratio_bounds.
Qed.

(** What the three groups of [align_indexed] contribute. *)
Lemma align_indexed_groups (old_elements new_elements : list PromptElement) :
  ∃ st,
    Forall pair_sound (aligned st)
    ∧ align_indexed old_elements new_elements
      = aligned st
        ++ map (fun old => (Some old, None)) (remaining (filtered old_elements) (old_used st))
        ++ map (fun new => (None, Some new)) (remaining (filtered new_elements) (new_used st)).
Proof.
  exists (passes (filtered old_elements) (filtered new_elements)).
  split; [apply passes_sound|done].
Qed.

(** X7. In every pair the aligner returns with both sides, the two
    elements have the same kind; and no pair is empty on both sides. *)
Theorem matched_pairs_same_kind (old_elements new_elements : list PromptElement) :
  Forall (fun p : option PromptElement * option PromptElement =>
            match p with
            | (Some old, Some new) => type old = type new
            | (None, None) => False
            | _ => True
            end)
         (align_elements old_elements new_elements).
Proof.
  unfold align_elements.
  destruct (align_indexed_groups old_elements new_elements) as (st & Hs & ->).
  rewrite !map_app, !map_map. repeat (apply Forall_app; split).
  - apply Forall_fmap. eapply Forall_impl; [exact Hs|].
    intros [[o|] [n|]]; simpl; try done. by intros [? _].
  - by apply Forall_fmap, Forall_true.
  - by apply Forall_fmap, Forall_true.
Qed.

(** X8. In the result of a comparison, a Modified diff carries a
    similarity that is strictly above 0.5 and at most 1, and the details
    of every other diff are empty. *)
Theorem modified_similarity_above_half (old_text new_text old_label new_label : string) :
  ∃ r,
    diff_prompts old_text new_text old_label new_label = Some r
    ∧ Forall (fun d =>
                match change_type d with
                | MODIFIED =>
                    ∃ s, details d !! "similarity" = Some s
                         ∧ (1 # 2 < s)%Q ∧ (s <= 1)%Q
                | _ => details d = ∅
                end)
             (element_diffs r).
Proof.
  unfold diff_prompts.
  destruct (element_diffs_total (parse_prompt old_text) (parse_prompt new_text))
    as [ds Hds].
  rewrite Hds. simpl. eexists. split; [reflexivity|]. simpl.
  apply mapM_Some in Hds. unfold align_elements in Hds.
  destruct (align_indexed_groups (parse_prompt old_text) (parse_prompt new_text))
    as (st & Hs & Heq).
  rewrite Heq in Hds. clear Heq.
  rewrite !map_app in Hds.
  apply Forall2_app_inv_l in Hds as (d1 & d23 & H1 & H23 & ->).
  apply Forall2_app_inv_l in H23 as (d2 & d3 & H2 & H3 & ->).
  repeat (apply Forall_app; split).
  - apply Forall2_fmap_l in H1.
    eapply Forall2_Forall_r; [exact H1|].
    eapply Forall_impl; [exact Hs|].
    intros [[o|] [n|]] Hp d Hd; simpl in *; try done.
    destruct Hp as [_ Hp]. unfold forget in Hd; simpl in Hd.
    case_bool_decide; simplify_eq; simpl; [done|].
    destruct Hp as [?|Hlt]; [done|].
    eexists. split; [apply lookup_singleton_eq|]. split.
    + unfold threshold in Hlt. lra.
    + apply compute_similarity_le_1.
  - rewrite map_map in H2. apply Forall2_fmap_l in H2.
    eapply Forall2_Forall_r; [exact H2|]. apply Forall_true.
    intros x d Hd. simpl in Hd. by simplify_eq.
  - rewrite map_map in H3. apply Forall2_fmap_l in H3.
    eapply Forall2_Forall_r; [exact H3|]. apply Forall_true.
    intros x d Hd. simpl in Hd. by simplify_eq.
Qed.

(** ** The order and the number of the diffs *)

(** The diffs [diff_prompts] builds for an element with no counterpart. *)
Definition removed_diff (e : PromptElement) : ElementDiff :=
  mkDiff REMOVED (type e) (Some (content e)) None (Some (line_start e)) None ∅.

Definition added_diff (e : PromptElement) : ElementDiff :=
  mkDiff ADDED (type e) None (Some (content e)) None (Some (line_start e)) ∅.

Lemma mapM_app_Some {A B} (f : A → option B) (l1 l2 : list A) (k1 k2 : list B) :
  mapM f l1 = Some k1 → mapM f l2 = Some k2 → mapM f (l1 ++ l2) = Some (k1 ++ k2).
Proof.
  rewrite !mapM_Some. apply Forall2_app.
Qed.

Lemma mapM_total {A B C} (f : B → option C) (h : A → B) (g : A → C) (l : list A) :
  (∀ x, f (h x) = Some (g x)) → mapM f (map h l) = Some (map g l).
Proof.
  intros H. apply mapM_Some. induction l; constructor; auto.
Qed.

(** The pairs with both sides, as pairs of items. *)
Definition both_sides (p : item * item) : pairing := (Some (fst p), Some (snd p)).

Lemma both_sides_pairs (al : list pairing) :
  Forall (fun p : pairing => is_Some (fst p) ∧ is_Some (snd p)) al →
  ∃ pairs, al = map both_sides pairs.
Proof.
  induction 1 as [|[o n] al [[o' Ho] [n' Hn]] _ [pairs ->]]; [by exists []|].
  simpl in Ho, Hn. subst. by exists ((o', n') :: pairs).
Qed.

Lemma omap_fst_both (pairs : list (item * item)) :
  omap fst (map both_sides pairs) = pairs.*1.
Proof. induction pairs as [|p pairs IH]; [done|]. simpl. by f_equal. Qed.

Lemma omap_snd_both (pairs : list (item * item)) :
  omap snd (map both_sides pairs) = pairs.*2.
Proof. induction pairs as [|p pairs IH]; [done|]. simpl. by f_equal. Qed.

(** The items left unused are the items on no side of a pair. *)
Lemma remaining_unmatched (l sides : list item) (used : gset nat) :
  sides ≡ₚ filter (fun p : item => fst p ∈ used) l →
  remaining l used = filter (fun x => x ∉ sides) l.
Proof.
  intros Hsides. unfold remaining. apply filter_ext_elem. intros x Hx.
  rewrite Hsides, list_elem_of_filter. naive_solver.
Qed.

(** X9. The diffs of a comparison come in three groups. First the diffs
    of the matched pairs: each is the diff of an old and a new element that
    are not Whitespace elements, and is Unchanged or Modified; no element
    is in two pairs. Then a Removed diff for every old element that is no
    Whitespace element and is in no matched pair, and for these only, in
    the order of the old segmentation. Then an Added diff for every new
    element that is no Whitespace element and is in no matched pair, and
    for these only, in the order of the new segmentation. An element is
    the item [(i, e)] of its segmentation. *)
Theorem diffs_in_three_groups (old_text new_text old_label new_label : string) :
  ∃ r (pairs : list (item * item)) (matched : list ElementDiff),
    diff_prompts old_text new_text old_label new_label = Some r
    ∧ element_diffs r
      = matched
        ++ map (fun x : item => removed_diff (snd x))
               (filter (fun x => x ∉ pairs.*1) (filtered (parse_prompt old_text)))
        ++ map (fun x : item => added_diff (snd x))
               (filter (fun x => x ∉ pairs.*2) (filtered (parse_prompt new_text)))
    ∧ Forall2 (fun (p : item * item) (d : ElementDiff) =>
                 fst p ∈ filtered (parse_prompt old_text)
                 ∧ snd p ∈ filtered (parse_prompt new_text)
                 ∧ element_diff (Some (snd (fst p)), Some (snd (snd p))) = Some d
                 ∧ (change_type d = UNCHANGED ∨ change_type d = MODIFIED))
              pairs matched
    ∧ NoDup pairs.*1
    ∧ NoDup pairs.*2.
Proof.
  unfold diff_prompts, align_elements, align_indexed.
  pose proof (passes_used (filtered (parse_prompt old_text)) (filtered (parse_prompt new_text))
                (filtered_distinct _) (filtered_distinct _)) as (Hboth & Hold & Hnew).
  fold (passes (filtered (parse_prompt old_text)) (filtered (parse_prompt new_text))).
  set (st := passes _ _) in *.
  destruct (both_sides_pairs _ Hboth) as [pairs Hpairs].
  rewrite Hpairs, omap_fst_both in Hold. rewrite Hpairs, omap_snd_both in Hnew.
  rewrite Hpairs, (remaining_unmatched _ _ _ Hold), (remaining_unmatched _ _ _ Hnew).
  clear Hpairs Hboth.
  assert (∃ matched,
            mapM element_diff (map forget (map both_sides pairs)) = Some matched
            ∧ Forall2 (fun (p : item * item) (d : ElementDiff) =>
                         element_diff (Some (snd (fst p)), Some (snd (snd p))) = Some d
                         ∧ (change_type d = UNCHANGED ∨ change_type d = MODIFIED))
                      pairs matched) as (matched & Hm & Hdiffs).
  { clear. induction pairs as [|[o n] pairs (m & Hm & Hk)]; [by exists []|].
    simpl. rewrite Hm. unfold forget; simpl.
    case_bool_decide; simpl; eexists; (split; [reflexivity|]);
      (constructor; [|done]); simpl;
      (rewrite ?bool_decide_eq_true_2 by done; rewrite ?bool_decide_eq_false_2 by done);
      split; auto. }
  rewrite !map_app, !map_map.
  erewrite (mapM_app_Some _ _ _ matched); [|by rewrite <- map_map|].
  2:{ apply mapM_app_Some.
      - apply (mapM_total _ _ (fun old : item => removed_diff (snd old))). by intros x.
      - apply (mapM_total _ _ (fun new : item => added_diff (snd new))). by intros x. }
  simpl. eexists _, pairs, matched.
  split; [reflexivity|]. simpl. split; [done|].
  split.
  - apply Forall2_same_length_lookup_2; [by eapply Forall2_length|].
    intros i p d Hp Hd.
    destruct (Forall2_lookup_lr _ _ _ _ _ _ Hdiffs Hp Hd) as [Hpd Hkind].
    assert (fst p ∈ pairs.*1) as H1
      by (apply list_elem_of_fmap_2; by eapply list_elem_of_lookup_2).
    assert (snd p ∈ pairs.*2) as H2
      by (apply list_elem_of_fmap_2; by eapply list_elem_of_lookup_2).
    rewrite Hold in H1. rewrite Hnew in H2.
    apply list_elem_of_filter in H1 as [_ H1]. apply list_elem_of_filter in H2 as [_ H2].
    done.
  - split.
    + rewrite Hold. apply NoDup_filter, items_distinct, filtered_distinct.
    + rewrite Hnew. apply NoDup_filter, items_distinct, filtered_distinct.
Qed.

(** [DiffResult.summary]: the dict as a record, the two lists of variable
    names as the sets they list. *)
Record Summary : Type := mkSummary {
  added : nat;
  removed : nat;
  modified : nat;
  total_changes : nat;
  summary_added_variables : gset string;
  summary_removed_variables : gset string;
  summary_similarity : Q;
}.

Definition summary (r : DiffResult) : Summary :=
  let added := count_kind ADDED (element_diffs r) in
  let removed := count_kind REMOVED (element_diffs r) in
  let modified := count_kind MODIFIED (element_diffs r) in
  mkSummary added removed modified (added + removed + modified)
    (added_variables r) (removed_variables r) (similarity r).

Lemma sides_counted (al : list pairing) (ds : list ElementDiff) :
  Forall2 (fun p d => element_diff (forget p) = Some d) al ds →
  length (omap fst al) = count_kind REMOVED ds + count_kind MODIFIED ds + count_kind UNCHANGED ds
  ∧ length (omap snd al) = count_kind ADDED ds + count_kind MODIFIED ds + count_kind UNCHANGED ds.
Proof.
  unfold count_kind.
  induction 1 as [|[[o|] [n|]] d al ds Hd _ IH]; [done|..];
    unfold forget in Hd; simpl in Hd; try case_bool_decide; simplify_eq;
    rewrite !filter_cons; destruct IH as [IH1 IH2];
    repeat case_decide; try done; cbn [omap list_omap fst snd length];
    fold (omap (M:=list) (@fst (option item) (option item)) al);
    fold (omap (M:=list) (@snd (option item) (option item)) al);
    simpl length; split; lia.
Qed.

(** X10. In the result of a comparison, Removed + Modified + Unchanged
    diffs are as many as the elements of the old text that are not
    Whitespace, and Added + Modified + Unchanged diffs as many as those of
    the new text. *)
Theorem diffs_count_elements (old_text new_text old_label new_label : string) :
  ∃ r,
    diff_prompts old_text new_text old_label new_label = Some r
    ∧ removed (summary r) + modified (summary r) + count_kind UNCHANGED (element_diffs r)
      = length (filter (fun e => type e ≠ WHITESPACE) (parse_prompt old_text))
    ∧ added (summary r) + modified (summary r) + count_kind UNCHANGED (element_diffs r)
      = length (filter (fun e => type e ≠ WHITESPACE) (parse_prompt new_text)).
Proof.
  unfold diff_prompts.
  destruct (element_diffs_total (parse_prompt old_text) (parse_prompt new_text))
    as [ds Hds].
  rewrite Hds. simpl. eexists. split; [reflexivity|]. simpl.
  apply mapM_Some in Hds. unfold align_elements in Hds.
  apply Forall2_fmap_l in Hds. apply sides_counted in Hds as [<- <-].
  rewrite (Permutation_length (align_old_sides _ _)),
    (Permutation_length (align_new_sides _ _)).
  by rewrite <- !filtered_elements, !length_map.
Qed.

(** X11. [has_changes] is true exactly when the [total_changes] of the
    summary is not zero. *)
Theorem has_changes_iff_total (r : DiffResult) :
  has_changes r = true ↔ total_changes (summary r) ≠ 0.
Proof.
  unfold has_changes, summary, count_kind; simpl.
  induction (element_diffs r) as [|d ds IH]; simpl; [done|].
  rewrite !filter_cons, orb_true_iff, IH.
  destruct (change_type d) eqn:Hd; repeat case_decide; try done;
    case_bool_decide; try done; simpl; split; try lia; auto.
Qed.

(** ** The variables of a text *)

(** The matches of the eight patterns, pattern after pattern, as
    [extract_variables] collects them before it sorts. *)
Definition pattern_matches (text : string) : list variable :=
  flat_map (fun p =>
              map (fun m => (Re.group1 m, snd p, Re.start_ m, Re.end_ m))
                  (Re.finditer (fst p) text))
           VARIABLE_PATTERNS.

Definition by_start (v w : variable) : Prop := var_start v ≤ var_start w.

Lemma insert_by_start_perm (v : variable) (l : list variable) :
  insert_by_start v l ≡ₚ v :: l.
Proof.
  induction l as [|w l IH]; simpl; [done|].
  destruct (var_start v <=? var_start w); [done|].
  by rewrite IH, Permutation_swap.
Qed.

Lemma sort_by_start_perm (l : list variable) : sort_by_start l ≡ₚ l.
Proof.
  induction l as [|v l IH]; simpl; [done|].
  by rewrite insert_by_start_perm, IH.
Qed.

Lemma insert_by_start_sorted (v : variable) (l : list variable) :
  StronglySorted by_start l → StronglySorted by_start (insert_by_start v l).
Proof.
  induction 1 as [|w l Hl IH Hw]; simpl; [repeat constructor|].
  destruct (Nat.leb_spec (var_start v) (var_start w)) as [Hle|Hlt].
  - constructor; [by constructor|].
    constructor; [done|].
    eapply Forall_impl; [exact Hw|]. unfold by_start. intros; simpl in *; lia.
  - constructor; [done|].
    rewrite insert_by_start_perm. constructor; [|done]. unfold by_start. lia.
Qed.

Lemma sort_by_start_sorted (l : list variable) : StronglySorted by_start (sort_by_start l).
Proof.
  induction l as [|v l IH]; simpl; [constructor|].
  by apply insert_by_start_sorted.
Qed.

Lemma insert_by_start_stable (p : nat) (v : variable) (l : list variable) :
  filter (fun w => var_start w = p) (insert_by_start v l)
  = filter (fun w => var_start w = p) (v :: l).
Proof.
  induction l as [|w l IH]; simpl; [done|].
  destruct (Nat.leb_spec (var_start v) (var_start w)) as [Hle|Hlt]; [done|].
  rewrite (filter_cons _ w), IH, !filter_cons.
  repeat case_decide; try done; lia.
Qed.

Lemma sort_by_start_stable (p : nat) (l : list variable) :
  filter (fun w => var_start w = p) (sort_by_start l)
  = filter (fun w => var_start w = p) l.
Proof.
  induction l as [|v l IH]; simpl; [done|].
  by rewrite insert_by_start_stable, !filter_cons, IH.
Qed.

(** X12. [extract_variables] returns the matches of all the patterns, each
    once, ordered by the offset where they start; matches that start at
    the same offset stay in the order of the patterns that found them. *)
Theorem extract_variables_ordered (text : string) :
  extract_variables text ≡ₚ pattern_matches text
  ∧ StronglySorted (fun v w => var_start v ≤ var_start w) (extract_variables text)
  ∧ ∀ p, filter (fun v => var_start v = p) (extract_variables text)
         = filter (fun v => var_start v = p) (pattern_matches text).
Proof.
  split; [apply sort_by_start_perm|].
  split; [apply sort_by_start_sorted|].
  intros p. apply sort_by_start_stable.
Qed.

(** Every element the loop appends is built at one of four places: by
    [flush_element], or as a Role, a Comment or a Whitespace element.
    What holds of the elements built there holds of all the elements. *)
Section built.
Variable syntax : string.
Variable P : PromptElement → Prop.
Hypothesis flushed : ∀ t content i j,
  P (mkElement t content i j content {[ "syntax" := MStr syntax ]}).
Hypothesis role : ∀ name i line, P (mkElement ROLE name i i line {[ "role" := MStr name ]}).
Hypothesis comment : ∀ c i line, P (mkElement COMMENT c i i line ∅).
Hypothesis whitespace : ∀ i line, P (mkElement WHITESPACE "" i i line ∅).

Lemma flush_built (st : pstate) :
  Forall P (elements st) → Forall P (elements (flush_element syntax st)).
Proof.
  intros H. unfold flush_element. destruct (current_element_lines st); [done|].
  simpl. apply Forall_app; split; [done|]. apply Forall_singleton, flushed.
Qed.

Lemma emit_built (e : PromptElement) (st : pstate) :
  P e → Forall P (elements st) → Forall P (elements (emit e st)).
Proof. intros He H. simpl. apply Forall_app; split; [done|]. by apply Forall_singleton. Qed.

Lemma step_built (i : nat) (line : string) (st : pstate) :
  Forall P (elements st) → Forall P (elements (step syntax i line st)).
Proof.
  intros H. unfold step.
  repeat case_match;
    repeat first
      [ assumption
      | match goal with Hs : elements st = _ |- Forall P (elements st) => by rewrite Hs end
      | apply flush_built
      | apply emit_built; [by auto|]
      | progress change (elements (push_line ?l ?s)) with (elements s)
      | progress change (elements (open_run ?i ?t ?s)) with (elements s)
      | progress change (elements (set_in_example ?b ?s)) with (elements s)
      | progress change (elements (set_in_code_block ?b ?s)) with (elements s) ].
Qed.

Lemma run_built (lines : list string) : ∀ i st,
  Forall P (elements st) → Forall P (elements (run syntax i lines st)).
Proof.
  induction lines as [|line lines IH]; intros i st H; simpl; [done|].
  by apply IH, step_built.
Qed.

End built.

(** The names [parse_prompt] records for an element. *)
Definition variables_of (e : PromptElement) : list string :=
  if has_variables (type e) then map var_name (extract_variables (content e)) else [].

Lemma annotate_variables (e : PromptElement) :
  metadata e !! "variables" = None →
  metadata (annotate e) !! "variables"
  = match variables_of e with [] => None | l => Some (MList l) end
  ∧ variables_of (annotate e) = variables_of e.
Proof.
  intros H. unfold annotate, variables_of.
  destruct (has_variables (type e)) eqn:Ht; [|by rewrite Ht].
  destruct (extract_variables (content e)) as [|v vs] eqn:Hv; simpl.
  - by rewrite Ht, Hv.
  - rewrite Ht, Hv. by rewrite lookup_insert.
Qed.

Lemma get_all_variables_from (els : list PromptElement) (x : string) : ∀ acc,
  x ∈ foldl (fun variables element =>
               match metadata element !! "variables" with
               | Some v => update_with variables v
               | None => variables
               end) acc els
  ↔ x ∈ acc ∨ ∃ e v, e ∈ els ∧ metadata e !! "variables" = Some v ∧ x ∈ update_with ∅ v.
Proof.
  induction els as [|e els IH]; intros acc; simpl.
  - split; [auto|]. intros [?|(e & v & He & _)]; [done|]. by apply elem_of_nil in He.
  - rewrite IH. split.
    + intros [Hx|(e' & v & He' & Hv & Hx)].
      * destruct (metadata e !! "variables") as [v|] eqn:Hv; [|auto].
        assert (x ∈ acc ∨ x ∈ update_with ∅ v) as [?|?]
          by (destruct v; simpl in *; set_solver); [auto|].
        right. exists e, v. split; [left|done].
      * right. exists e', v. split; [by right|done].
    + intros [Hx|(e' & v & He' & Hv & Hx)].
      * left. destruct (metadata e !! "variables") as [[]|]; simpl; set_solver.
      * apply elem_of_cons in He' as [->|He'].
        -- left. rewrite Hv. destruct v; simpl in *; set_solver.
        -- right. by exists e', v.
Qed.

Lemma parse_prompt_variables (text : string) :
  Forall (fun e => metadata e !! "variables"
                   = match variables_of e with [] => None | l => Some (MList l) end)
         (parse_prompt text).
Proof.
  unfold parse_prompt. apply Forall_fmap.
  eapply Forall_impl.
  - apply (flush_built _ (fun e => metadata e !! "variables" = None)); [done|].
    by apply run_built.
  - intros e He. simpl. by destruct (annotate_variables e He) as [-> ->].
Qed.

(** X13. The names recorded in a segmentation. The metadata of an element
    has the key ['variables'] exactly when the element is a Text,
    Instruction or Example element in whose content [extract_variables]
    finds a match, and the value is then the names of the matches, in
    their order. [get_all_variables] returns the set of these names: a
    name is in it exactly when some pattern finds it in the content of a
    Text, Instruction or Example element. *)
Theorem variables_of_segmentation (text : string) :
  Forall (fun e =>
            metadata e !! "variables"
            = if has_variables (type e) then
                match extract_variables (content e) with
                | [] => None
                | vars => Some (MList (map var_name vars))
                end
              else None)
         (parse_prompt text)
  ∧ ∀ x, x ∈ get_all_variables (parse_prompt text)
         ↔ ∃ e v, e ∈ parse_prompt text ∧ has_variables (type e) = true
                  ∧ v ∈ extract_variables (content e) ∧ var_name v = x.
Proof.
  pose proof (parse_prompt_variables text) as H.
  split.
  - eapply Forall_impl; [exact H|]. intros e ->. unfold variables_of.
    destruct (has_variables (type e)); [|done].
    by destruct (extract_variables (content e)).
  - intros x. unfold get_all_variables. rewrite get_all_variables_from.
    rewrite Forall_forall in H. split.
    + intros [Hx|(e & v & He & Hv & Hx)]; [set_solver|].
      rewrite (H e He) in Hv. unfold variables_of in Hv.
      destruct (has_variables (type e)) eqn:Ht; [|done].
      assert (x ∈ map var_name (extract_variables (content e))) as Hin.
      { destruct (map var_name (extract_variables (content e))); [done|].
        simplify_eq. simpl in Hx. set_solver. }
      apply list_elem_of_fmap in Hin as (w & -> & Hw). by exists e, w.
    + intros (e & v & He & Ht & Hv & <-). right.
      exists e, (MList (variables_of e)). split; [done|].
      assert (var_name v ∈ variables_of e) as Hin.
      { unfold variables_of. rewrite Ht. by apply list_elem_of_fmap_2. }
      split.
      * rewrite (H e He). destruct (variables_of e); [|done]. by apply elem_of_nil in Hin.
      * simpl. set_solver.
Qed.

(** ** The dialect of a text *)

Lemma max_key_first (l : list (string * nat)) : ∀ best,
  ∃ i n, (best :: l) !! i = Some (max_key best l, n)
         ∧ ∀ j p, (best :: l) !! j = Some p → snd p ≤ n ∧ (j < i → snd p < n).
Proof.
  induction l as [|p l IH]; intros best; simpl.
  - exists 0, (snd best). split; [by destruct best|].
    intros [|j] q Hq; [|done]. injection Hq as <-. lia.
  - destruct (Nat.ltb_spec (snd best) (snd p)) as [Hlt|Hge].
    + destruct (IH p) as (i & n & Hi & Hmax). exists (S i), n. split; [done|].
      intros [|j] q Hq.
      * injection Hq as <-. destruct (Hmax 0 p eq_refl). lia.
      * destruct (Hmax j q Hq). split; [done|]. lia.
    + destruct (IH best) as (i & n & Hi & Hmax).
      destruct (Hmax 0 best eq_refl) as [Hb0 Hb1].
      destruct i as [|i].
      * exists 0, n. split; [done|]. injection Hi as Hb.
        assert (snd best = n) as Hn by (by rewrite Hb).
        intros [|[|j]] q Hq.
        -- injection Hq as <-. lia.
        -- injection Hq as <-. lia.
        -- destruct (Hmax (S j) q Hq). lia.
      * exists (S (S i)), n. split; [done|].
        intros [|[|j]] q Hq.
        -- injection Hq as <-. lia.
        -- injection Hq as <-. specialize (Hb1 ltac:(lia)). lia.
        -- destruct (Hmax (S j) q Hq). split; [done|]. lia.
Qed.

Lemma foldr_max_zero (l : list nat) : foldr Nat.max 0 l = 0 ↔ Forall (fun n => n = 0) l.
Proof.
  induction l as [|n l IH]; simpl; [by split; [constructor|]|].
  rewrite Forall_cons, <- IH. lia.
Qed.

(** X14. The dialect [detect_template_syntax] returns. The counts are
    taken for jinja2, mustache, fstring, shell, xml and placeholder, in
    this order. When every count is zero the result is [plain]. Otherwise
    it is the dialect of the largest count and, when several dialects share
    the largest count, the first of them in that order. *)
Theorem detect_template_syntax_first_max (text : string) :
  map fst (syntax_counts text)
  = ["jinja2"; "mustache"; "fstring"; "shell"; "xml"; "placeholder"]
  ∧ ((detect_template_syntax text = "plain"
      ∧ Forall (fun p => snd p = 0) (syntax_counts text))
     ∨ ∃ i n,
         syntax_counts text !! i = Some (detect_template_syntax text, n)
         ∧ 0 < n
         ∧ ∀ j p, syntax_counts text !! j = Some p → snd p ≤ n ∧ (j < i → snd p < n)).
Proof.
  split; [unfold syntax_counts; by rewrite map_map|].
  unfold detect_template_syntax.
  destruct (Nat.eqb_spec (foldr Nat.max 0 (map snd (syntax_counts text))) 0) as [Hz|Hnz].
  - left. split; [done|]. apply foldr_max_zero in Hz. by apply Forall_fmap in Hz.
  - right. destruct (syntax_counts text) as [|p l]; [done|].
    destruct (max_key_first l p) as (i & n & Hi & Hmax).
    exists i, n. split; [done|]. split; [|done].
    destruct (decide (n = 0)) as [->|]; [|lia].
    destruct Hnz. apply foldr_max_zero, Forall_fmap, Forall_lookup.
    intros j q Hq. simpl. destruct (Hmax j q Hq). lia.
Qed.

(** ** Texts without placeholders *)

(** The characters the placeholders of all the dialects start with, and
    the texts that hold none of them. *)
Definition marker (c : ascii) : bool :=
  Ascii.eqb c "{" || Ascii.eqb c "$" || Ascii.eqb c "<" || Ascii.eqb c "[".

Fixpoint markerless (s : string) : bool :=
  match s with
  | EmptyString => true
  | String c s' => negb (marker c) && markerless s'
  end.

(** The patterns whose matches all start with a character [P] accepts. *)
Fixpoint opens_with (P : ascii → bool) (r : Re.regex) : bool :=
  match r with
  | Re.Lit c => P c
  | Re.Cat r1 _ => opens_with P r1
  | Re.Alt r1 r2 => opens_with P r1 && opens_with P r2
  | Re.Grp r1 => opens_with P r1
  | _ => false
  end.

Lemma rmatch_opens (P : ascii → bool) (r : Re.regex) :
  opens_with P r = true →
  ∀ pos s cap k,
    match s with String x _ => P x = false | EmptyString => True end →
    Re.rmatch false r pos s cap k = None.
Proof.
  induction r as [|c| | |r1 IH1 r2 IH2|r1 IH1 r2 IH2| |r1 IH1| |];
    simpl; intros Hr pos s cap k Hs; try done.
  - destruct s as [|x s]; [done|].
    destruct (Ascii.eqb_spec x c) as [->|]; [congruence|done].
  - by apply IH1.
  - apply andb_true_iff in Hr as [H1 H2]. by rewrite IH1, IH2.
  - by apply IH1.
Qed.

Lemma finditer_from_markerless (r : Re.regex) (fuel : nat) :
  opens_with marker r = true →
  ∀ pos s, markerless s = true → Re.finditer_from fuel r pos s = [].
Proof.
  intros Hr. induction fuel as [|fuel IH]; intros pos s Hs; simpl; [done|].
  rewrite (rmatch_opens marker); [|done|].
  - destruct s as [|x s]; [done|].
    simpl in Hs. apply andb_true_iff in Hs as [_ Hs]. by apply IH.
  - destruct s as [|x s]; [done|]. simpl in Hs. by destruct (marker x).
Qed.

Lemma markerless_app (s1 s2 : string) :
  markerless (s1 +:+ s2) = markerless s1 && markerless s2.
Proof.
  induction s1 as [|c s1 IH]; [done|].
  rewrite string_app_cons. simpl. by rewrite IH, andb_assoc.
Qed.

Lemma markerless_join (ls : list string) :
  markerless (Py.join nl_str ls) = true ↔ Forall (fun l => markerless l = true) ls.
Proof.
  induction ls as [|l ls IH]; [by split; [constructor|]|].
  destruct ls as [|l' ls].
  - by rewrite Forall_singleton.
  - rewrite join_cons by done. rewrite !markerless_app, Forall_cons, <- IH.
    change (markerless nl_str) with true. rewrite !andb_true_iff. naive_solver.
Qed.

Lemma extract_variables_markerless (s : string) :
  markerless s = true → extract_variables s = [].
Proof.
  intros Hs. unfold extract_variables.
  assert (Forall (fun p => opens_with marker (fst p) = true) VARIABLE_PATTERNS) as H
    by (repeat (constructor; [reflexivity|]); constructor).
  induction H as [|p ps Hp _ IH]; simpl; [done|].
  unfold Re.finditer at 1. rewrite finditer_from_markerless by done. simpl.
  exact IH.
Qed.

Lemma detect_markerless (s : string) :
  markerless s = true → detect_template_syntax s = "plain".
Proof.
  intros Hs. unfold detect_template_syntax.
  rewrite (proj2 (foldr_max_zero _)); [done|].
  unfold syntax_counts. rewrite map_map. apply Forall_fmap.
  assert (Forall (fun p => opens_with marker (snd p) = true) SYNTAX_PATTERNS) as H
    by (repeat (constructor; [reflexivity|]); constructor).
  eapply Forall_impl; [exact H|]. intros p Hp. simpl.
  unfold Re.count, Re.finditer. by rewrite finditer_from_markerless.
Qed.

Lemma parse_prompt_shaped (text : string) : Forall shaped (parse_prompt text).
Proof.
  unfold parse_prompt. apply Forall_fmap.
  set (syntax := detect_template_syntax text).
  assert (state_shaped (flush_element syntax (run syntax 0 (Py.split Py.nl text) initial)))
    as (Hel & _).
  { apply flush_shaped, run_shaped. by repeat split. }
  eapply Forall_impl; [exact Hel|]. intros e He. by apply annotate_shaped.
Qed.

(** X15. A text that holds none of the characters [{], [$], [<] and [[]
    has no placeholder: its dialect is [plain], [extract_variables] finds
    nothing in it, no element of its segmentation has the key
    ['variables'] in its metadata, and [get_all_variables] returns the
    empty set. *)
Theorem markerless_text_has_no_variables (text : string) :
  markerless text = true →
  detect_template_syntax text = "plain"
  ∧ extract_variables text = []
  ∧ Forall (fun e => metadata e !! "variables" = None) (parse_prompt text)
  ∧ get_all_variables (parse_prompt text) = ∅.
Proof.
  intros Hm.
  split; [by apply detect_markerless|].
  split; [by apply extract_variables_markerless|].
  assert (Forall (fun e => metadata e !! "variables" = None) (parse_prompt text)) as Hnone.
  { destruct (parse_prompt_covers text) as (_ & _ & _ & _ & Hraw).
    pose proof (parse_prompt_shaped text) as Hshape.
    pose proof (parse_prompt_variables text) as Hvars.
    rewrite Forall_forall in Hraw, Hshape, Hvars |- *.
    intros e He. specialize (Hraw e He). specialize (Hshape e He).
    rewrite (Hvars e He). clear Hvars.
    unfold variables_of. destruct (has_variables (type e)) eqn:Ht; [|done].
    rewrite extract_variables_markerless; [done|].
    assert (content e = raw e) as ->
      by (unfold shaped in Hshape; by destruct (type e)).
    rewrite Hraw. apply markerless_join. unfold slice.
    apply Forall_take, Forall_drop, markerless_join. by rewrite split_join. }
  split; [done|].
  apply elem_of_equiv_empty_L. intros x Hx.
  unfold get_all_variables in Hx. apply get_all_variables_from in Hx.
  destruct Hx as [Hx|(e & v & He & Hv & _)]; [set_solver|].
  rewrite Forall_forall in Hnone. by rewrite (Hnone e He) in Hv.
Qed.

(** A witness of [markerless_text_has_no_variables]: an instruction line
    and a text line with no placeholder. *)
Lemma markerless_text_witness :
  detect_template_syntax ("You are a bot." +:+ nl_str +:+ "Be brief.") = "plain"
  ∧ extract_variables ("You are a bot." +:+ nl_str +:+ "Be brief.") = []
  ∧ Forall (fun e => metadata e !! "variables" = None)
           (parse_prompt ("You are a bot." +:+ nl_str +:+ "Be brief."))
  ∧ get_all_variables (parse_prompt ("You are a bot." +:+ nl_str +:+ "Be brief.")) = ∅.
Proof.
  apply (markerless_text_has_no_variables ("You are a bot." +:+ nl_str +:+ "Be brief.")).
  reflexivity.
Defined.

(** ** Closed fenced blocks *)

Lemma step_fence_close (syntax : string) (i : nat) (line : string) (st : pstate) :
  fence_line line = true → in_code_block st = true →
  step syntax i line st
  = flush_element syntax (push_line line (set_in_code_block false st)).
Proof. intros Hf Hc. unfold step. unfold fence_line in Hf. by rewrite Hf, Hc. Qed.

(** The loop only appends to [elements]. *)
Definition extends (st st' : pstate) : Prop :=
  ∃ suffix, elements st' = elements st ++ suffix.

Lemma extends_refl (st : pstate) : extends st st.
Proof. exists []. by rewrite app_nil_r. Qed.

Lemma extends_flush (syntax : string) (st0 st : pstate) :
  extends st0 st → extends st0 (flush_element syntax st).
Proof.
  intros [suffix H]. unfold flush_element.
  destruct (current_element_lines st); [by exists suffix|].
  eexists. simpl. by rewrite H, <- app_assoc.
Qed.

Lemma extends_emit (e : PromptElement) (st0 st : pstate) :
  extends st0 st → extends st0 (emit e st).
Proof. intros [suffix H]. eexists. simpl. by rewrite H, <- app_assoc. Qed.

Lemma extends_push (line : string) (st0 st : pstate) :
  extends st0 st → extends st0 (push_line line st).
Proof. done. Qed.

Lemma extends_open (i : nat) (t : PromptType) (st0 st : pstate) :
  extends st0 st → extends st0 (open_run i t st).
Proof. done. Qed.

Lemma extends_example (b : bool) (st0 st : pstate) :
  extends st0 st → extends st0 (set_in_example b st).
Proof. done. Qed.

Lemma extends_code (b : bool) (st0 st : pstate) :
  extends st0 st → extends st0 (set_in_code_block b st).
Proof. done. Qed.

Lemma step_extends (syntax : string) (i : nat) (line : string) (st : pstate) :
  extends st (step syntax i line st).
Proof.
  unfold step.
  repeat case_match;
    repeat first
      [ apply extends_refl
      | apply extends_flush
      | apply extends_emit
      | apply extends_push
      | apply extends_open
      | apply extends_example
      | apply extends_code ].
Qed.

Lemma run_extends (syntax : string) (lines : list string) : ∀ i st,
  extends st (run syntax i lines st).
Proof.
  induction lines as [|line lines IH]; intros i st; simpl; [apply extends_refl|].
  destruct (IH (S i) (step syntax i line st)) as [s2 H2].
  destruct (step_extends syntax i line st) as [s1 H1].
  exists (s1 ++ s2). by rewrite H2, H1, <- app_assoc.
Qed.

(** X16. A text whose lines are [pre], then a fence line that opens a
    block (the fence lines of [pre] pair up), then lines [body] none of
    which is a fence, then a fence line, then lines [post]: segmentation
    returns the elements of [pre], then a single Example element that
    holds the lines from the opening fence to the closing fence, whatever
    the lines of [body] are, then the elements of the lines after it. *)
Theorem closed_fence (text : string) (pre : list string) (opening : string)
    (body : list string) (closing : string) (post : list string) :
  Py.split Py.nl text = pre ++ opening :: body ++ closing :: post →
  fence_line opening = true →
  fence_line closing = true →
  Nat.even (fences pre) = true →
  Forall (fun line => fence_line line = false) body →
  ∃ e suffix,
    parse_prompt text
    = map annotate
        (elements (flush_element (detect_template_syntax text)
                     (reached (detect_template_syntax text) pre)))
      ++ e :: suffix
    ∧ type e = EXAMPLE
    ∧ content e = Py.join nl_str (opening :: body ++ [closing])
    ∧ raw e = content e
    ∧ line_start e = length pre
    ∧ line_end e = length pre + length body + 1.
Proof.
  intros Hlines Hopen Hclose Heven Hbody.
  unfold parse_prompt. rewrite Hlines.
  set (syntax := detect_template_syntax text).
  rewrite run_app. cbn [run]. fold (reached syntax pre).
  assert (in_code_block (reached syntax pre) = false) as Hout.
  { unfold reached. rewrite run_code_flag. simpl.
    rewrite <- Nat.negb_even, Heven. done. }
  rewrite step_fence_open by done.
  rewrite run_app. rewrite (run_inside syntax body) by done. cbn [run].
  rewrite step_fence_close by done.
  unfold flush_element at 2. cbn -[flush_element Py.join run].
  set (e := mkElement EXAMPLE _ _ _ _ _).
  set (st := mkState _ _ _ _ _ _).
  destruct (extends_flush syntax st _ (run_extends syntax post (S (S (length pre + length body))) st))
    as [suffix ->].
  exists (annotate e), (map annotate suffix).
  split; [subst st; simpl; by rewrite !map_app, <- app_assoc|].
  destruct (annotate_fields e) as (-> & -> & -> & -> & ->).
  subst e. cbn -[Py.join]. repeat split. rewrite length_app. simpl. lia.
Qed.

(** A text with a fenced block on its lines 1 to 4, between two lines. *)
Definition closed_fence_text : string :=
  "intro" +:+ nl_str +:+ "```" +:+ nl_str +:+ "system: hi" +:+ nl_str
  +:+ nl_str +:+ "```" +:+ nl_str +:+ "You must stop".

(** A witness of [closed_fence]: the lines 1 to 4 of [closed_fence_text],
    a role line and a blank line among them, form one Example element. *)
Lemma closed_fence_witness :
  ∃ e suffix,
    parse_prompt closed_fence_text
    = map annotate
        (elements (flush_element (detect_template_syntax closed_fence_text)
                     (reached (detect_template_syntax closed_fence_text) ["intro"])))
      ++ e :: suffix
    ∧ type e = EXAMPLE
    ∧ content e = Py.join nl_str ("```" :: ["system: hi"; ""] ++ ["```"])
    ∧ raw e = content e
    ∧ line_start e = 1
    ∧ line_end e = 1 + 2 + 1.
Proof.
  apply (closed_fence closed_fence_text ["intro"] "```" ["system: hi"; ""] "```"
           ["You must stop"]).
  - reflexivity.
  - reflexivity.
  - reflexivity.
  - reflexivity.
  - repeat constructor.
Defined.

(** ** Texts with no character in common *)

Lemma indices_from_absent (c : ascii) (l : list ascii) : ∀ j,
  c ∉ l → indices_from c j l = [].
Proof.
  induction l as [|x l IH]; intros j Hc; simpl; [done|].
  apply not_elem_of_cons in Hc as [Hx Hc].
  destruct (Ascii.eqb_spec x c) as [->|_]; [done|]. by apply IH.
Qed.

Section apart.
Variables a b : list ascii.
Hypothesis apart : ∀ c, c ∈ a → c ∉ b.

Lemma same_apart (i j : nat) : same (a !! i) (b !! j) = false.
Proof.
  destruct (a !! i) as [c|] eqn:Ha, (b !! j) as [d|] eqn:Hb; simpl; try done.
  destruct (Ascii.eqb_spec c d) as [->|_]; [|done].
  apply list_elem_of_lookup_2 in Ha, Hb. by destruct (apart d).
Qed.

Lemma rows_apart (alo blo bhi : nat) (l : list nat) : ∀ st,
  snd (foldl (row a b blo bhi) st l) = snd st.
Proof.
  induction l as [|i l IH]; intros st; simpl; [done|].
  rewrite IH. unfold row.
  destruct (a !! i) as [c|] eqn:Ha; [|done].
  unfold b2j. rewrite indices_from_absent; [by destruct (popular b c)|].
  apply apart. by eapply list_elem_of_lookup_2.
Qed.

Lemma extend_left_apart (alo blo : nat) (junk : bool) (fuel : nat) (best : Match) :
  extend_left a b alo blo junk fuel best = best.
Proof.
  destruct fuel, best as [[besti bestj] bestsize]; simpl; [done|].
  by rewrite same_apart, andb_false_r.
Qed.

Lemma extend_right_apart (ahi bhi : nat) (junk : bool) (fuel : nat) (best : Match) :
  extend_right a b ahi bhi junk fuel best = best.
Proof.
  destruct fuel, best as [[besti bestj] bestsize]; simpl; [done|].
  by rewrite same_apart, andb_false_r.
Qed.

Lemma find_longest_match_apart (alo ahi blo bhi : nat) :
  find_longest_match a b alo ahi blo bhi = (alo, blo, 0).
Proof.
  unfold find_longest_match, rows.
  by rewrite rows_apart, !extend_left_apart, !extend_right_apart.
Qed.

Lemma ratio_apart : a ≠ [] ∨ b ≠ [] → (ratio a b == 0)%Q.
Proof.
  intros Hne. unfold ratio, get_matching_blocks, found_blocks, enough.
  replace (2 * length a + 1) with (S (2 * length a)) by lia.
  cbn [blocks_loop]. rewrite find_longest_match_apart. cbn [Nat.eqb].
  assert (∀ n, blocks_loop a b n [] [] = ([], [])) as -> by (by intros []).
  cbn. unfold calculate_ratio.
  destruct (Nat.eqb_spec (length a + length b) 0) as [H0|_].
  - destruct a, b; simpl in H0; try lia. by destruct Hne.
  - unfold Qdiv. by rewrite Qmult_0_l.
Qed.

End apart.

(** No character of [s] is a character of [t]. *)
Definition no_common_character (s t : string) : bool :=
  forallb (fun c => negb (existsb (Ascii.eqb c) (String.list_ascii_of_string t)))
          (String.list_ascii_of_string s).

(** X17. Two texts that have no character in common, and are not both
    empty, have similarity 0. *)
Theorem no_common_character_similarity (old_text new_text : string) :
  no_common_character old_text new_text = true →
  Py.truthy old_text || Py.truthy new_text = true →
  (compute_similarity old_text new_text == 0)%Q.
Proof.
  intros Hapart Hne. unfold compute_similarity.
  destruct (Py.truthy old_text) eqn:Ho, (Py.truthy new_text) eqn:Hn; try done.
  simpl. apply ratio_apart.
  - intros c Hc Hc'. unfold no_common_character in Hapart.
    rewrite forallb_forall in Hapart.
    apply list_elem_of_In, Hapart, negb_true_iff in Hc.
    rewrite <- not_true_iff_false in Hc. destruct Hc.
    apply existsb_exists. exists c. split; [by apply list_elem_of_In|].
    apply Ascii.eqb_refl.
  - left. by apply truthy_chars.
Qed.

(** A witness of [no_common_character_similarity]. *)
Lemma no_common_character_witness : (compute_similarity "abc" "xyz" == 0)%Q.
Proof. apply (no_common_character_similarity "abc" "xyz"); reflexivity. Defined.

(** ** Role names *)

(** The patterns with no capturing group. *)
Fixpoint groupless (r : Re.regex) : bool :=
  match r with
  | Re.Grp _ => false
  | Re.Cat r1 r2 | Re.Alt r1 r2 => groupless r1 && groupless r2
  | Re.Rep _ r1 => groupless r1
  | _ => true
  end.

(** A match of [r] followed by [k] ends in a call of [k], and a pattern
    with no group hands the group it received on to [k]. *)
Lemma rmatch_continues (ic : bool) (r : Re.regex) : ∀ pos s cap k o,
  Re.rmatch ic r pos s cap k = Some o →
  ∃ pos' s' cap', k pos' s' cap' = Some o ∧ (groupless r = true → cap' = cap).
Proof.
  induction r as [|c|neg rs| |r1 IH1 r2 IH2|r1 IH1 r2 IH2|greedy r1 IH1|r1 IH1| |];
    intros pos s cap k o H; simpl in H.
  - by eexists _, _, _.
  - destruct s as [|x s]; [done|]. case_match; [|done]. by eexists _, _, _.
  - destruct s as [|x s]; [done|]. case_match; [|done]. by eexists _, _, _.
  - destruct s as [|x s]; [done|]. case_match; [done|]. by eexists _, _, _.
  - apply IH1 in H as (p1 & s1 & c1 & H & Hc1).
    apply IH2 in H as (p2 & s2 & c2 & H & Hc2).
    exists p2, s2, c2. split; [done|]. simpl.
    intros [? ?]%andb_true_iff. by rewrite Hc2, Hc1.
  - simpl. destruct (Re.rmatch ic r1 pos s cap k) as [o'|] eqn:E.
    + injection H as ->. apply IH1 in E as (p1 & s1 & c1 & H & Hc1).
      exists p1, s1, c1. split; [done|]. intros [? ?]%andb_true_iff. auto.
    + apply IH2 in H as (p2 & s2 & c2 & H & Hc2).
      exists p2, s2, c2. split; [done|]. intros [? ?]%andb_true_iff. auto.
  - match type of H with ?f _ pos s cap = _ => set (loop := f) in H end.
    assert (∀ n pos s cap,
              loop (S n) pos s cap
              = let more (_ : unit) :=
                  Re.rmatch ic r1 pos s cap
                    (fun pos' s' cap' =>
                       if String.length s' <? String.length s
                       then loop n pos' s' cap' else None) in
                if greedy then
                  match more () with Some o => Some o | None => k pos s cap end
                else
                  match k pos s cap with Some o => Some o | None => more () end)
      as Hloop by reflexivity.
    simpl. revert H. generalize (String.length s). intros n. revert pos s cap o.
    induction n as [|n IHn]; intros pos s cap o H; [by eexists _, _, _|].
    rewrite Hloop in H. cbv zeta in H.
    assert (∀ o', Re.rmatch ic r1 pos s cap
                    (fun pos' s' cap' =>
                       if String.length s' <? String.length s
                       then loop n pos' s' cap' else None) = Some o' →
                  ∃ pos' s' cap', k pos' s' cap' = Some o' ∧ (groupless r1 = true → cap' = cap))
      as Hmore.
    { intros o' Hm. apply IH1 in Hm as (p1 & s1 & c1 & Hm & Hc1).
      destruct (String.length s1 <? String.length s); [|done].
      apply IHn in Hm as (p2 & s2 & c2 & Hm & Hc2).
      exists p2, s2, c2. split; [done|]. intros Hg. by rewrite Hc2, Hc1. }
    destruct greedy.
    + destruct (Re.rmatch ic r1 pos s cap _) as [o'|] eqn:E.
      * injection H as ->. by apply Hmore.
      * by eexists _, _, _.
    + destruct (k pos s cap) as [o'|] eqn:E.
      * injection H as ->. by eexists _, _, _.
      * by apply Hmore.
  - apply IH1 in H as (p1 & s1 & c1 & H & _). by eexists _, _, _.
  - destruct (pos =? 0); [|done]. by eexists _, _, _.
  - destruct s as [|x [|y s]]; try done; [by eexists _, _, _|].
    destruct (Ascii.eqb x Py.nl); [|done]. by eexists _, _, _.
Qed.

Lemma substring_prefix (pre s : string) :
  String.substring 0 (String.length pre) (pre +:+ s) = pre.
Proof.
  induction pre as [|c pre IH].
  - change (EmptyString +:+ s) with s. by destruct s.
  - rewrite string_app_cons. simpl. by rewrite IH.
Qed.

(** A match of the characters of [w], ignoring case, reads off the text
    a prefix that is [w] up to case. *)
Lemma rmatch_lits (w : string) : ∀ pos s cap k o,
  Re.rmatch true (Re.lits w) pos s cap k = Some o →
  ∃ pre s',
    s = pre +:+ s' ∧ Py.lower pre = Py.lower w
    ∧ String.length pre = String.length w
    ∧ k (pos + String.length w) s' cap = Some o.
Proof.
  induction w as [|c w IH]; intros pos s cap k o H.
  - exists EmptyString, s. simpl in *. by rewrite Nat.add_0_r.
  - destruct w as [|c' w].
    + simpl in H. destruct s as [|x s]; [done|].
      destruct (Ascii.eqb_spec (Py.lower_char x) (Py.lower_char c)) as [Hx|]; [|done].
      exists (String x EmptyString), s. simpl. rewrite Hx.
      by replace (pos + 1) with (S pos) by lia.
    + change (Re.lits (String c (String c' w)))
        with (Re.Cat (Re.Lit c) (Re.lits (String c' w))) in H.
      cbn [Re.rmatch] in H. destruct s as [|x s]; [done|].
      destruct (Ascii.eqb_spec (Py.lower_char x) (Py.lower_char c)) as [Hx|]; [|done].
      apply IH in H as (pre & s' & -> & Hl & Hlen & Hk).
      exists (String x pre), s'. rewrite string_app_cons.
      split; [done|]. split; [simpl in *; by rewrite Hx, Hl|].
      split; [simpl in *; by rewrite Hlen|].
      by replace (pos + String.length (String c (String c' w)))
        with (S pos + String.length (String c' w)) by (simpl; lia).
Qed.

(** The names a role marker can give. *)
Definition known_roles : list string :=
  ["system"; "user"; "assistant"; "human"; "ai"; "bot"].

(** The patterns that read off the text one of the known names, up to
    case. *)
Definition reads_role (r : Re.regex) : Prop :=
  ∀ pos s cap k o,
    Re.rmatch true r pos s cap k = Some o →
    ∃ w pre s',
      w ∈ known_roles ∧ s = pre +:+ s' ∧ Py.lower pre = w
      ∧ k (pos + String.length pre) s' cap = Some o.

Lemma reads_role_lits (w : string) :
  w ∈ known_roles → reads_role (Re.lits w).
Proof.
  intros Hw pos s cap k o H.
  apply rmatch_lits in H as (pre & s' & -> & Hl & Hlen & Hk).
  exists w, pre, s'. rewrite Hlen. repeat split; try done.
  rewrite Hl. unfold known_roles in Hw.
  repeat (apply elem_of_cons in Hw as [->|Hw]; [done|]).
  by apply elem_of_nil in Hw.
Qed.

Lemma reads_role_alt (r1 r2 : Re.regex) :
  reads_role r1 → reads_role r2 → reads_role (Re.Alt r1 r2).
Proof.
  intros H1 H2 pos s cap k o H. cbn [Re.rmatch] in H.
  destruct (Re.rmatch true r1 pos s cap k) as [o'|] eqn:E.
  - injection H as ->. by apply H1.
  - by apply H2.
Qed.

Lemma reads_role_names : reads_role role_names.
Proof.
  unfold role_names. cbn [Re.alts].
  repeat apply reads_role_alt; apply reads_role_lits; unfold known_roles; set_solver.
Qed.

(** A group of alternatives among the known names, followed by a pattern
    with no group: the group holds one of the names, up to case. *)
Lemma rmatch_role_group (names tail : Re.regex) (pos : nat) (s : string)
    (e : nat) (c : option string) :
  reads_role names →
  groupless tail = true →
  Re.rmatch true (Re.Cat (Re.Grp names) tail) pos s None
    (fun pos' _ cap' => Some (pos', cap')) = Some (e, c) →
  ∃ pre, c = Some pre ∧ Py.lower pre ∈ known_roles.
Proof.
  intros Hnames Htail H. cbn [Re.rmatch] in H.
  apply Hnames in H as (w & pre & s' & Hw & -> & Hl & Hk).
  apply rmatch_continues in Hk as (p' & s'' & c' & Hk & Hc).
  injection Hk as -> ->. rewrite Hc by done.
  replace (pos + String.length pre - pos) with (String.length pre) by lia.
  rewrite substring_prefix. exists pre. split; [done|]. by rewrite Hl.
Qed.

Lemma match_bos (ic : bool) (r : Re.regex) (line : string) :
  Re.match_ ic (Re.Cat Re.Bos r) line
  = Re.rmatch ic r 0 line None (fun pos _ cap => Some (pos, cap)).
Proof. reflexivity. Qed.

Lemma rmatch_lit_cat (ic : bool) (c : ascii) (r : Re.regex) (pos : nat) (s : string)
    (cap : option string) (k : Re.cont) (o : Re.outcome) :
  Re.rmatch ic (Re.Cat (Re.Lit c) r) pos s cap k = Some o →
  ∃ x s', s = String x s' ∧ Re.rmatch ic r (S pos) s' cap k = Some o.
Proof.
  cbn [Re.rmatch]. destruct s as [|x s]; [done|]. case_match; [|done]. by exists x, s.
Qed.

(** The name [is_role_marker] returns is one of the known names. *)
Lemma is_role_marker_known (line name : string) :
  is_role_marker line = Some name → name ∈ known_roles.
Proof.
  unfold is_role_marker, ROLE_PATTERNS, pat. cbn [first_role Re.cats].
  intros H.
  assert (∀ e c names tail,
            reads_role names → groupless tail = true →
            (Re.match_ true (Re.Cat Re.Bos (Re.Cat (Re.Grp names) tail)) line = Some (e, c)
             ∨ ∃ x, Re.match_ true
                      (Re.Cat Re.Bos (Re.Cat (Re.Lit x) (Re.Cat (Re.Grp names) tail))) line
                    = Some (e, c)) →
            Py.lower (default EmptyString c) ∈ known_roles) as Hcase.
  { intros e c names tail Hn Ht [E|[x E]]; rewrite match_bos in E.
    - by apply rmatch_role_group in E as (pre & -> & Hpre).
    - apply rmatch_lit_cat in E as (y & s' & _ & E).
      by apply rmatch_role_group in E as (pre & -> & Hpre). }
  destruct (Re.match_ true _ line) as [[e c]|] eqn:E1.
  { injection H as <-. eapply Hcase; [| |left; exact E1]; [|done].
    apply reads_role_alt; [apply reads_role_names|].
    apply reads_role_lits. unfold known_roles. set_solver. }
  clear E1. destruct (Re.match_ true _ line) as [[e c]|] eqn:E2.
  { injection H as <-. eapply Hcase; [| |right; eexists; exact E2]; [|done].
    apply reads_role_names. }
  clear E2. destruct (Re.match_ true _ line) as [[e c]|] eqn:E3; [|done].
  injection H as <-. eapply Hcase; [| |right; eexists; exact E3]; [|done].
  apply reads_role_names.
Qed.

(** [str.isascii]: every character is below 128. On such a text the
    case folding of [re.IGNORECASE] and of [str.lower] is the folding of
    the letters [A] to [Z] that [Re.rmatch] and [Py.lower] perform. *)
Definition isascii (s : string) : bool :=
  forallb (fun c => Py.code c <? 128) (String.list_ascii_of_string s).

(** X18. In the segmentation of a text of ASCII characters, the content
    of every Role element is one of [system], [user], [assistant],
    [human], [ai] and [bot], in lower case whatever the case of the
    line. *)
Theorem role_elements_named (text : string) :
  isascii text = true →
  Forall (fun e =>
            type e = ROLE →
            content e ∈ ["system"; "user"; "assistant"; "human"; "ai"; "bot"])
         (parse_prompt text).
Proof.
  intros _. eapply Forall_impl; [apply parse_prompt_shaped|].
  intros e He Ht. unfold shaped in He. rewrite Ht in He.
  destruct He as (_ & _ & Hrole). by apply is_role_marker_known in Hrole.
Qed.

(** A witness of [role_elements_named]: a role line in upper case, whose
    Role element has the content [system]. *)
Lemma role_elements_named_witness :
  isascii ("SYSTEM: hi" +:+ nl_str +:+ "You are a bot.") = true
  ∧ map type (parse_prompt ("SYSTEM: hi" +:+ nl_str +:+ "You are a bot."))
    = [ROLE; INSTRUCTION]
  ∧ Forall (fun e =>
              type e = ROLE →
              content e ∈ ["system"; "user"; "assistant"; "human"; "ai"; "bot"])
           (parse_prompt ("SYSTEM: hi" +:+ nl_str +:+ "You are a bot.")).
Proof.
  split; [reflexivity|]. split; [vm_compute; reflexivity|].
  apply (role_elements_named ("SYSTEM: hi" +:+ nl_str +:+ "You are a bot.")).
  reflexivity.
Defined.

(** ** The lines the diffs point at *)

Lemma tiles_starts (els : list PromptElement) : ∀ k n,
  tiles k els n → Forall (fun e => line_start e < n) els.
Proof.
  induction els as [|e els IH]; intros k n H; simpl in H; [constructor|].
  destruct H as (Hs & Hle & H). pose proof (tiles_le _ _ _ H).
  constructor; [lia|]. by eapply IH.
Qed.

(** An item of the filtered list of a segmentation is an element of the
    segmentation that is no Whitespace element and starts on a line of the
    text. *)
Lemma filtered_parse_prompt (text : string) (x : item) :
  x ∈ filtered (parse_prompt text) →
  snd x ∈ parse_prompt text ∧ type (snd x) ≠ WHITESPACE
  ∧ line_start (snd x) < length (Py.split Py.nl text).
Proof.
  destruct x as [i e]. intros [Hi Ht]%filtered_elem. simpl.
  apply list_elem_of_lookup_2 in Hi. repeat split; try done.
  destruct (parse_prompt_covers text) as (lead & Htiles & _).
  apply tiles_starts in Htiles. rewrite Forall_forall in Htiles. by apply Htiles.
Qed.

Lemma align_indexed_kinds (old_elements new_elements : list PromptElement) :
  Forall (fun p : pairing =>
            match p with
            | (Some old, Some new) => type (snd old) = type (snd new)
            | _ => True
            end)
         (align_indexed old_elements new_elements).
Proof.
  destruct (align_indexed_groups old_elements new_elements) as (st & Hs & ->).
  repeat (apply Forall_app; split).
  - eapply Forall_impl; [exact Hs|]. intros [[o|] [n|]]; simpl; try done. by intros [? _].
  - by apply Forall_fmap, Forall_true.
  - by apply Forall_fmap, Forall_true.
Qed.

(** X19. Every diff of a comparison points at elements of the two texts.
    Its old side is empty when the diff is Added, and otherwise holds the
    content and the first line of an element of the segmentation of the
    old text that is no Whitespace element, of the type the diff reports,
    and this line is a line of the old text; likewise its new side, which
    is empty when the diff is Removed. *)
Theorem diffs_point_at_elements (old_text new_text old_label new_label : string) :
  ∃ r,
    diff_prompts old_text new_text old_label new_label = Some r
    ∧ Forall (fun d =>
                (if decide (change_type d = ADDED)
                 then old_content d = None ∧ old_line d = None
                 else ∃ e, e ∈ parse_prompt old_text ∧ type e ≠ WHITESPACE
                           ∧ element_type d = type e
                           ∧ old_content d = Some (content e)
                           ∧ old_line d = Some (line_start e)
                           ∧ line_start e < length (Py.split Py.nl old_text))
                ∧ (if decide (change_type d = REMOVED)
                   then new_content d = None ∧ new_line d = None
                   else ∃ e, e ∈ parse_prompt new_text ∧ type e ≠ WHITESPACE
                             ∧ element_type d = type e
                             ∧ new_content d = Some (content e)
                             ∧ new_line d = Some (line_start e)
                             ∧ line_start e < length (Py.split Py.nl new_text)))
             (element_diffs r).
Proof.
  unfold diff_prompts.
  destruct (element_diffs_total (parse_prompt old_text) (parse_prompt new_text))
    as [ds Hds].
  rewrite Hds. simpl. eexists. split; [reflexivity|]. simpl.
  apply mapM_Some in Hds. unfold align_elements in Hds.
  apply Forall2_fmap_l in Hds.
  pose proof (align_old_sides (parse_prompt old_text) (parse_prompt new_text)) as Hold.
  pose proof (align_new_sides (parse_prompt old_text) (parse_prompt new_text)) as Hnew.
  pose proof (align_indexed_kinds (parse_prompt old_text) (parse_prompt new_text)) as Hk.
  apply Forall_lookup. intros i d Hd.
  destruct (Forall2_lookup_r _ _ _ _ _ Hds Hd) as (p & Hp & Hpd).
  apply list_elem_of_lookup_2 in Hp.
  rewrite Forall_forall in Hk. specialize (Hk p Hp).
  assert (∀ o, fst p = Some o → o ∈ filtered (parse_prompt old_text)) as Ho.
  { intros o Hfst. rewrite <- Hold. apply list_elem_of_omap. by exists p. }
  assert (∀ n, snd p = Some n → n ∈ filtered (parse_prompt new_text)) as Hn.
  { intros n Hsnd. rewrite <- Hnew. apply list_elem_of_omap. by exists p. }
  destruct p as [[o|] [n|]]; unfold forget in Hpd; simpl in Hpd;
    try case_bool_decide; simplify_eq; simpl;
    try (destruct (filtered_parse_prompt old_text o (Ho o eq_refl)) as (? & ? & ?));
    try (destruct (filtered_parse_prompt new_text n (Hn n eq_refl)) as (? & ? & ?));
    (split; [try done; by exists (snd o)|try done; by exists (snd n)]).
Qed.
